(** * Shallow embedding of dusk-uds: the worker pool ([src/worker.rs]), the
    Binder ([UnixDomainSocket::bind] in [src/uds.rs]) and the single-threaded
    socket of [src/lib.rs]. *)

From stdpp Require Import base list.
From Stdlib Require Import Lia.

(** ** Data model ([src/communication.rs], [src/options.rs]) *)

(** [pub enum Message { ShouldQuit, Success }] *)
Inductive Message := ShouldQuit | Success.

(** A [UnixStream] is opaque to the core; a connection is identified by a
    number, and the Task Provider's outcome is a function of it. *)
Definition UnixStream := nat.

(** [pub enum Task { Message(Message), Socket(UnixStream) }] *)
Inductive Task := Task_Message (m : Message) | Task_Socket (s : UnixStream).

(** [pub struct Options { pub workers: usize }] *)
Record Options := { workers_opt : nat }.

(** ** Diagnostics and OS-level events *)
Inductive Event :=
  | FsRemoveFile          (* fs::remove_file(path) succeeded *)
  | InfoBound             (* info!("UnixDomainSocket bound on {}") *)
  | SpawnWorker           (* thread::spawn(move || worker(t, r, p)) *)
  | SpawnListener         (* thread::spawn of the accept loop *)
  | ErrLock               (* error!("Error trying to lock the task channel") *)
  | ErrRecv               (* error!("Error trying to receive a task ...") *)
  | ErrSendShouldQuit     (* error!("Error trying to send a ShouldQuit ...") *)
  | ErrAccept             (* error!("Error receiving the UDS socket") *)
  | ErrJoin               (* error!("Error ending the worker thread gracefully") *)
  | InfoUnbinding.        (* info!("Unbinding UDS") *)

(** ** [std::sync::mpsc] channel shared by the pool *)

(** The FIFO buffer, the number of live [Sender] clones, and the number of
    live [Arc] handles to the [Mutex<Receiver>] (the receiver is dropped
    when it reaches zero). *)
Record Channel := mkChannel {
  queue : list Task;
  senders : nat;
  rx_refs : nat;
}.

Definition set_queue (q : list Task) (ch : Channel) : Channel :=
  mkChannel q (senders ch) (rx_refs ch).

(** [Sender::send]: fails iff the receiver has been dropped. *)
Definition send (ch : Channel) (t : Task) : option Channel :=
  if Nat.eqb (rx_refs ch) 0 then None
  else Some (set_queue (queue ch ++ [t]) ch).

(** [Receiver::recv]: the head if there is one; an error if the buffer is
    empty and no sender is left; otherwise it blocks. *)
Inductive RecvOutcome :=
  | Received (t : Task) (ch : Channel)
  | Disconnected
  | Blocks.

Definition recv (ch : Channel) : RecvOutcome :=
  match queue ch with
  | t :: q => Received t (set_queue q ch)
  | [] => if Nat.eqb (senders ch) 0 then Disconnected else Blocks
  end.

(** A thread that ends drops its [Sender] clone and its [Arc] clone. *)
Definition drop_handles (ch : Channel) : Channel :=
  mkChannel (queue ch) (senders ch - 1) (rx_refs ch - 1).

(** ** Worker threads ([src/worker.rs]) *)

(** Where a worker thread is: at the top of [loop], holding a dequeued task
    (the lock has been released, the [match task] has not run yet), returned
    from [worker] through [break], or ended by a panic of an [unwrap]. *)
Inductive WState := Idle | Holding (t : Task) | Finished | Panicked.

(** The pool: the channel, the poison flag of the [Mutex], the workers,
    whether the accept loop still runs, the log, and two auxiliary counters
    that the code does not keep: [consumed] counts the
    [Task::Message(ShouldQuit)] tasks received from the queue and
    [triggers] counts the units of work that returned [ShouldQuit]. *)
Record Pool := mkPool {
  chan : Channel;
  poisoned : bool;
  workers : list WState;
  listener_alive : bool;
  log : list Event;
  consumed : nat;
  triggers : nat;
}.

Definition is_quit_task (t : Task) : bool :=
  match t with Task_Message ShouldQuit => true | _ => false end.

Section Pool.

(** [block_on(p)] for the provider clone given the stream: the unit of work
    runs to completion and yields a [Message]. *)
Variable provider : UnixStream -> Message.

(** Worker [i] moves to [w] with channel [ch]; the rest is unchanged. *)
Definition upd (i : nat) (w : WState) (ch : Channel) (p : Pool) : Pool :=
  mkPool ch (poisoned p) (<[i := w]> (workers p)) (listener_alive p)
         (log p) (consumed p) (triggers p).

Definition add_log (e : Event) (p : Pool) : Pool :=
  mkPool (chan p) (poisoned p) (workers p) (listener_alive p)
         (log p ++ [e]) (consumed p) (triggers p).

Definition set_poisoned (p : Pool) : Pool :=
  mkPool (chan p) true (workers p) (listener_alive p)
         (log p) (consumed p) (triggers p).

Definition add_consumed (n : nat) (p : Pool) : Pool :=
  mkPool (chan p) (poisoned p) (workers p) (listener_alive p)
         (log p) (consumed p + n) (triggers p).

Definition add_trigger (p : Pool) : Pool :=
  mkPool (chan p) (poisoned p) (workers p) (listener_alive p)
         (log p) (consumed p) (S (triggers p)).

(** [tx.send(Task::Message(Message::ShouldQuit)).map_err(log).unwrap()]
    followed by [k] on success; a failure logs and panics, which ends the
    thread and drops its handles. *)
Definition send_quit_or_panic (i : nat) (k : WState) (p : Pool) : Pool :=
  match send (chan p) (Task_Message ShouldQuit) with
  | Some ch' =>
      let ch'' := match k with Finished => drop_handles ch' | _ => ch' end in
      upd i k ch'' p
  | None => add_log ErrSendShouldQuit (upd i Panicked (drop_handles (chan p)) p)
  end.

(** One step of worker [i]: the [let task = rx.lock()...recv()...] statement
    when it is at the top of the loop, the [match task] when it holds a
    task.  [None]: the worker cannot move (blocked in [recv], or ended). *)
Definition worker_step (i : nat) (p : Pool) : option Pool :=
  match workers p !! i with
  | Some Idle =>
      if poisoned p then
        (* lock() fails on a poisoned mutex: logged, then unwrap panics *)
        Some (add_log ErrLock (upd i Panicked (drop_handles (chan p)) p))
      else
        match recv (chan p) with
        | Received t ch' =>
            Some (add_consumed (if is_quit_task t then 1 else 0)
                    (upd i (Holding t) ch' p))
        | Disconnected =>
            (* recv() fails: logged, then unwrap panics while the guard is
               alive, which poisons the mutex *)
            Some (set_poisoned
                    (add_log ErrRecv (upd i Panicked (drop_handles (chan p)) p)))
        | Blocks => None
        end
  | Some (Holding t) =>
      match t with
      | Task_Socket s =>
          match provider s with
          | ShouldQuit => Some (send_quit_or_panic i Idle (add_trigger p))
          | Success => Some (upd i Idle (chan p) p)
          end
      | Task_Message ShouldQuit => Some (send_quit_or_panic i Finished p)
      | Task_Message Success => Some (upd i Idle (chan p) p)
      end
  | _ => None
  end.

(** ** The accept loop spawned by [bind] *)

(** [t.send(Task::Socket(s))]; a failure is only logged. *)
Definition listener_accept (s : UnixStream) (p : Pool) : Pool :=
  if listener_alive p then
    match send (chan p) (Task_Socket s) with
    | Some ch' =>
        mkPool ch' (poisoned p) (workers p) (listener_alive p)
               (log p) (consumed p) (triggers p)
    | None => add_log ErrAccept p
    end
  else p.

(** An accept error is logged and the loop goes on. *)
Definition listener_accept_error (p : Pool) : Pool :=
  if listener_alive p then add_log ErrAccept p else p.

(** [listener.incoming()] is exhausted: the thread ends, dropping [t]. *)
Definition listener_end (p : Pool) : Pool :=
  if listener_alive p then
    mkPool (mkChannel (queue (chan p)) (senders (chan p) - 1) (rx_refs (chan p)))
           (poisoned p) (workers p) false (log p) (consumed p) (triggers p)
  else p.

(** Interleaving: which thread moves. *)
Inductive Label :=
  | LWorker (i : nat)
  | LAccept (s : UnixStream)
  | LAcceptError
  | LListenerEnd
  | LStutter.

Definition pool_next (l : Label) (p : Pool) : option Pool :=
  match l with
  | LWorker i => worker_step i p
  | LAccept s => Some (listener_accept s p)
  | LAcceptError => Some (listener_accept_error p)
  | LListenerEnd => Some (listener_end p)
  | LStutter => Some p
  end.

Inductive reach (p0 : Pool) : Pool -> Prop :=
  | reach_refl : reach p0 p0
  | reach_step p l p' : reach p0 p -> pool_next l p = Some p' -> reach p0 p'.

(** A schedule run from the left. *)
Fixpoint run_labels (ls : list Label) (p : Pool) : option Pool :=
  match ls with
  | [] => Some p
  | l :: ls' => match pool_next l p with
                | Some p' => run_labels ls' p'
                | None => None
                end
  end.

End Pool.

(** [for socket in listener.incoming() { ... }] over the results the OS
    hands out: [Some s] is [Ok(s)], sent as [Task::Socket(s)]; [None] is an
    [Err], logged. *)
Fixpoint listener_loop (inc : list (option UnixStream)) (p : Pool) : Pool :=
  match inc with
  | [] => p
  | Some s :: inc' => listener_loop inc' (listener_accept s p)
  | None :: inc' => listener_loop inc' (listener_accept_error p)
  end.

(** ** The Binder: [UnixDomainSocket::bind] ([src/uds.rs]) *)

(** What the OS answers: whether a filesystem entry exists at the path,
    whether [fs::remove_file] succeeds, whether [PathBuf::to_str] succeeds
    (the path is valid UTF-8), and whether [UnixListener::bind] succeeds on
    a path with no entry. *)
Record Os := mkOs {
  path_exists : bool;
  remove_ok : bool;
  path_utf8 : bool;
  bind_ok : bool;
}.

Inductive IoError := RemoveFailed | InvalidPath | AddrInUse | BindFailed.

(** [Result<A, io::Error>] together with the events emitted so far; [?]
    is [io_bind]. *)
Definition Io (A : Type) : Type := (list Event * (A + IoError))%type.

Definition io_ret {A} (a : A) : Io A := ([], inl a).
Definition io_throw {A} (e : IoError) : Io A := ([], inr e).
Definition io_emit (e : Event) : Io unit := ([e], inl tt).

Definition io_bind {A B} (m : Io A) (f : A -> Io B) : Io B :=
  match m with
  | (l, inl a) => let (l', r) := f a in (l ++ l', r)
  | (l, inr e) => (l, inr e)
  end.

(** [if path.exists() { fs::remove_file(path)?; }]; returns whether an
    entry is still at the path afterwards. *)
Definition remove_stale (os : Os) : Io bool :=
  if path_exists os then
    if remove_ok os then io_bind (io_emit FsRemoveFile) (fun _ => io_ret false)
    else io_throw RemoveFailed
  else io_ret false.

(** [self.path.to_str().map(Ok).unwrap_or(Err(..))?] *)
Definition path_to_str (os : Os) : Io unit :=
  if path_utf8 os then io_ret tt else io_throw InvalidPath.

(** [UnixListener::bind(path)?]: an existing entry makes it fail. *)
Definition unix_listener_bind (os : Os) (present : bool) : Io unit :=
  if present then io_throw AddrInUse
  else if bind_ok os then io_ret tt else io_throw BindFailed.

(** The pool right after the spawns: the binder keeps [tx] and [rx]; each
    of the [n] workers holds a [Sender] clone and an [Arc] clone; the
    listener holds one more [Sender] clone. *)
Definition init_pool (n : nat) : Pool :=
  mkPool (mkChannel [] (n + 2) (n + 1)) false (repeat Idle n) true [] 0 0.

(** [(0..workers).map(|_| thread::spawn(..)).collect()] *)
Definition spawn_workers (n : nat) : Io unit := (repeat SpawnWorker n, inl tt).

(** Everything in [bind] before the join loop. *)
Definition bind_start (os : Os) (opts : Options) : Io Pool :=
  io_bind (remove_stale os) (fun present =>
  io_bind (path_to_str os) (fun _ =>
  (* mpsc::channel(), Mutex::new, Arc::new: cannot fail *)
  io_bind (unix_listener_bind os present) (fun _ =>
  io_bind (io_emit InfoBound) (fun _ =>
  io_bind (spawn_workers (workers_opt opts)) (fun _ =>
  io_bind (io_emit SpawnListener) (fun _ =>
  io_ret (init_pool (workers_opt opts)))))))).

(** [for w in workers { w.join().unwrap_or_else(|e| error!(..)); }]: joins
    in order, blocking ([None]) on the first worker still running. *)
Fixpoint join_all (ws : list WState) : option (list Event) :=
  match ws with
  | [] => Some []
  | Finished :: ws' => join_all ws'
  | Panicked :: ws' => option_map (cons ErrJoin) (join_all ws')
  | _ :: _ => None
  end.

(** The join loop and [Ok(info!("Unbinding UDS"))]. *)
Definition bind_finish (p : Pool) : option (Io unit) :=
  match join_all (workers p) with
  | Some l => Some (l ++ [InfoUnbinding], inl tt)
  | None => None
  end.



(** ** Auxiliary counting functions *)

Fixpoint count_w (f : WState -> bool) (ws : list WState) : nat :=
  match ws with
  | [] => 0
  | w :: ws' => (if f w then 1 else 0) + count_w f ws'
  end.

Definition is_finished (w : WState) : bool :=
  match w with Finished => true | _ => false end.
Definition is_panicked (w : WState) : bool :=
  match w with Panicked => true | _ => false end.
Definition is_alive (w : WState) : bool :=
  match w with Idle | Holding _ => true | _ => false end.
Definition holds_quit (w : WState) : bool :=
  match w with Holding t => is_quit_task t | _ => false end.

Fixpoint count_quit (q : list Task) : nat :=
  match q with
  | [] => 0
  | t :: q' => (if is_quit_task t then 1 else 0) + count_quit q'
  end.


(** ** A concrete schedule used by the witnesses *)

(** Connection [0]'s unit of work asks the pool to quit; the others succeed. *)
Definition demo_provider (s : UnixStream) : Message :=
  if Nat.eqb s 0 then ShouldQuit else Success.

Definition demo_run (n : nat) (ls : list Label) : Pool :=
  match run_labels demo_provider ls (init_pool n) with
  | Some p => p
  | None => init_pool n
  end.

(** A worker holding a relay while the receiver is gone ([rx_refs = 0]):
    the send of [Task::Message(ShouldQuit)] fails. *)
Definition dropped_rx_pool : Pool :=
  mkPool (mkChannel [] 1 0) false [Holding (Task_Socket 0)] true [] 0 0.

(** A worker at the top of its loop on a channel with an empty buffer and
    no sender left: [recv] fails. *)
Definition broken_channel_pool : Pool :=
  mkPool (mkChannel [] 0 1) false [Idle] false [] 0 0.

(** An OS on which every step of [bind] succeeds, with a stale entry at
    the path. *)
Definition os_ok : Os := mkOs true true true true.


(** An OS on which every step of [bind] before the
    spawns succeeds. *)
Definition setup_ok (os : Os) : Prop :=
  (path_exists os = true -> remove_ok os = true) /\
  path_utf8 os = true /\ bind_ok os = true.

(** ** Runs and fairness *)

(** How many tasks precede the first [Task::Message(ShouldQuit)] of the
    queue. *)
Fixpoint quit_pos (q : list Task) : nat :=
  match q with
  | [] => 0
  | t :: q' => if is_quit_task t then 0 else S (quit_pos q')
  end.

Definition alive (p : Pool) : nat := count_w is_alive (workers p).

(** Distance of the shutdown token from being held by a worker: [0] when
    a worker holds it, one more than its position in the queue otherwise. *)
Definition token_dist (p : Pool) : nat :=
  if Nat.eqb (count_w holds_quit (workers p)) 0
  then S (quit_pos (queue (chan p))) else 0.

Definition lt_m (p' p : Pool) : Prop :=
  alive p' < alive p \/ (alive p' = alive p /\ token_dist p' < token_dist p).
Definition le_m (p' p : Pool) : Prop :=
  alive p' < alive p \/ (alive p' = alive p /\ token_dist p' <= token_dist p).

Section Runs.
Variable provider : UnixStream -> Message.

Definition enabled (i : nat) (p : Pool) : Prop := worker_step provider i p <> None.

(** An infinite interleaving: at each instant the scheduled thread moves. *)
Definition is_run (ps : nat -> Pool) (ls : nat -> Label) : Prop :=
  forall t, pool_next provider (ls t) (ps t) = Some (ps (S t)).

(** Weak fairness for worker [i]: from every instant on, [i] is eventually
    scheduled or not able to move. *)
Definition weakly_fair (ps : nat -> Pool) (ls : nat -> Label) (i : nat) : Prop :=
  forall t, exists m, ~ enabled i (ps (t + m)) \/ ls (t + m) = LWorker i.

End Runs.

(** A fair run of a one-worker pool: connection [0] arrives, the worker
    runs it, relays the [ShouldQuit] it yields, takes the relayed signal
    back and stops; then nothing happens anymore. *)
Definition demo_labels (t : nat) : Label :=
  match t with
  | 0 => LAccept 0
  | 1 | 2 | 3 | 4 => LWorker 0
  | _ => LStutter
  end.

Fixpoint demo_states (t : nat) : Pool :=
  match t with
  | 0 => init_pool 1
  | S t' => match pool_next demo_provider (demo_labels t') (demo_states t') with
            | Some p => p
            | None => demo_states t'
            end
  end.

(** ** The single-threaded socket of [src/lib.rs] *)

Module Legacy.

(** [pub enum State { Closed = 0x00, Listening = 0x01, ShouldQuit = 0x02 }] *)
Inductive State := Closed | Listening | ShouldQuit.

(** [state as u8] *)
Definition state_u8 (s : State) : nat :=
  match s with Closed => 0 | Listening => 1 | ShouldQuit => 2 end.

(** [pub enum Message { ChangeState(State) }] *)
Inductive Message := ChangeState (s : State).

(** The [Arc<RwLock<State>>] of the socket: the state and the poison flag
    of the lock.  The path is described by the [Os] record, and [tx]/[rx]
    by the messages that arrive at each iteration of [bind]. *)
Record UnixDomainSocket := mkUds {
  state : State;
  state_poisoned : bool;
}.

(** An [io::Error] of the OS, or the [ErrorKind::Other] error built from a
    poisoned lock. *)
Inductive Error := IoErr (e : IoError) | LockPoisoned.

(** [UnixDomainSocket::new]: the state is [State::Closed]. *)
Definition new : UnixDomainSocket := mkUds Closed false.

(** [self.state.read().map_err(..).and_then(|state| Ok(state.clone()))] *)
Definition get_state (u : UnixDomainSocket) : State + Error :=
  if state_poisoned u then inr LockPoisoned else inl (state u).

(** [self.state.write()], then the guarded state is overwritten with [state]. *)
Definition set_state (u : UnixDomainSocket) (s : State)
    : UnixDomainSocket * (unit + Error) :=
  if state_poisoned u then (u, inr LockPoisoned) else (mkUds s false, inl tt).

(** [self.get_state().and_then(|state| Ok(state as u8 == 0x01))] *)
Definition is_listening (u : UnixDomainSocket) : bool + Error :=
  match get_state u with
  | inl s => inl (Nat.eqb (state_u8 s) 1)
  | inr e => inr e
  end.

(** [match message { Message::ChangeState(state) => self.set_state(state) }] *)
Definition receive_message (u : UnixDomainSocket) (m : Message)
    : UnixDomainSocket * (unit + Error) :=
  match m with ChangeState s => set_state u s end.

(** [for msg in self.rx.try_iter() { self.receive_message(msg)?; }] *)
Fixpoint drain_messages (u : UnixDomainSocket) (ms : list Message)
    : UnixDomainSocket * (unit + Error) :=
  match ms with
  | [] => (u, inl tt)
  | m :: ms' =>
      match receive_message u m with
      | (u', inl _) => drain_messages u' ms'
      | (u', inr e) => (u', inr e)
      end
  end.

(** What [bind] emits: OS-level events shared with [src/uds.rs], a handler
    thread spawned, [error!] on a failed connection, [debug!("Thread
    spawned")] and [info!("UnixDomainSocket closed")]. *)
Inductive LEvent := LOs (e : Event) | SpawnHandler | ErrSocket | DebugSpawned | InfoClosed.

(** One iteration of [for socket in listener.incoming()]: whether [socket]
    is [Ok], and the messages the handler threads have sent on [tx] that
    are pending in [rx] when [try_iter] runs. *)
Record Iteration := mkIteration {
  socket_ok : bool;
  arrived : list Message;
}.

(** The loop body: spawn the handler or log the error, drain the pending
    messages, [if !self.is_listening()? { break; }], [debug!]; when the
    loop is left, [Ok(info!("UnixDomainSocket closed"))]. *)
Fixpoint listen (u : UnixDomainSocket) (its : list Iteration)
    : UnixDomainSocket * list LEvent * (unit + Error) :=
  match its with
  | [] => (u, [InfoClosed], inl tt)
  | it :: its' =>
      let e1 := if socket_ok it then SpawnHandler else ErrSocket in
      match drain_messages u (arrived it) with
      | (u1, inr e) => (u1, [e1], inr e)
      | (u1, inl _) =>
          match is_listening u1 with
          | inr e => (u1, [e1], inr e)
          | inl false => (u1, [e1; InfoClosed], inl tt)
          | inl true =>
              match listen u1 its' with
              | (u2, l, r) => (u2, e1 :: DebugSpawned :: l, r)
              end
          end
      end
  end.

(** Removal of a stale entry, [to_str], [UnixListener::bind(path)]: the
    same steps as in [src/uds.rs]. *)
Definition setup (os : Os) : Io unit :=
  io_bind (remove_stale os) (fun present =>
  io_bind (path_to_str os) (fun _ =>
  unix_listener_bind os present)).

(** [UnixDomainSocket::bind]: the setup, then in the [and_then] closure
    [info!], [self.set_state(State::Listening)?] and the loop. *)
Definition bind (os : Os) (u : UnixDomainSocket) (its : list Iteration)
    : UnixDomainSocket * list LEvent * (unit + Error) :=
  match setup os with
  | (l, inr e) => (u, map LOs l, inr (IoErr e))
  | (l, inl _) =>
      match set_state u Listening with
      | (u1, inr e) => (u1, map LOs l ++ [LOs InfoBound], inr e)
      | (u1, inl _) =>
          match listen u1 its with
          | (u2, l2, r) => (u2, map LOs l ++ LOs InfoBound :: l2, r)
          end
      end
  end.

(** The state named by the last message of a batch, [s] if there is none. *)
Fixpoint final_state (s : State) (ms : list Message) : State :=
  match ms with
  | [] => s
  | ChangeState s' :: ms' => final_state s' ms'
  end.

Fixpoint count_ev (f : LEvent -> bool) (l : list LEvent) : nat :=
  match l with
  | [] => 0
  | e :: l' => (if f e then 1 else 0) + count_ev f l'
  end.

Definition is_spawn (e : LEvent) : bool :=
  match e with SpawnHandler => true | _ => false end.
Definition is_err_socket (e : LEvent) : bool :=
  match e with ErrSocket => true | _ => false end.

(** Iterations whose connection was accepted. *)
Fixpoint accepted (its : list Iteration) : nat :=
  match its with
  | [] => 0
  | it :: its' => (if socket_ok it then 1 else 0) + accepted its'
  end.

End Legacy.

(** ** Pool invariant *)

Definition b2n (b : bool) : nat := if b then 1 else 0.

(** What holds in every state the pool reaches from [init_pool n]. *)
Record pool_inv (n : nat) (p : Pool) : Prop := {
  inv_length : length (workers p) = n;
  inv_poison : poisoned p = false;
  inv_no_panic : count_w is_panicked (workers p) = 0;
  inv_rx : rx_refs (chan p) = 1 + count_w is_alive (workers p);
  inv_tx : senders (chan p) =
           1 + count_w is_alive (workers p) + b2n (listener_alive p);
  inv_tokens : count_quit (queue (chan p)) + count_w holds_quit (workers p)
               = triggers p;
  inv_consumed : consumed p = count_w is_finished (workers p)
                              + count_w holds_quit (workers p);
}.

(** ** Lemmas *)

Lemma count_w_insert (f : WState -> bool) (ws : list WState) (i : nat) (w w' : WState) :
  ws !! i = Some w ->
  count_w f (<[i := w']> ws) + b2n (f w) = count_w f ws + b2n (f w').
Proof.
  revert i. induction ws as [|x ws IH]; intros [|i] Hi; simpl in *; try discriminate.
  - injection Hi as ->. unfold b2n. destruct (f w), (f w'); lia.
  - specialize (IH i Hi). lia.
Qed.

Lemma count_quit_app (q : list Task) (t : Task) :
  count_quit (q ++ [t]) = count_quit q + b2n (is_quit_task t).
Proof.
  induction q as [|x q IH]; simpl; [unfold b2n; lia|rewrite IH; lia].
Qed.

Lemma count_w_repeat (f : WState -> bool) (w : WState) (n : nat) :
  count_w f (repeat w n) = n * b2n (f w).
Proof. induction n as [|n IH]; simpl; [done|rewrite IH; unfold b2n; lia]. Qed.

Lemma pool_inv_init (n : nat) : pool_inv n (init_pool n).
Proof.
  constructor; simpl; rewrite ?count_w_repeat; simpl; unfold b2n;
    try lia; first [apply repeat_length | done].
Qed.

Ltac counts Hi w w' :=
  pose proof (count_w_insert is_alive _ _ w w' Hi);
  pose proof (count_w_insert is_finished _ _ w w' Hi);
  pose proof (count_w_insert is_panicked _ _ w w' Hi);
  pose proof (count_w_insert holds_quit _ _ w w' Hi).

Ltac dist_cases :=
  repeat match goal with
  | |- context [Nat.eqb ?a 0] => destruct (Nat.eqb_spec a 0)
  end.

Section Invariant.
Variable provider : UnixStream -> Message.

Lemma worker_step_inv (n i : nat) (p p' : Pool) :
  pool_inv n p -> worker_step provider i p = Some p' -> pool_inv n p'.
Proof.
  intros [Hlen Hpo Hpa Hrx Htx Htok Hcons] Hs.
  unfold worker_step in Hs.
  destruct (workers p !! i) as [w|] eqn:Hi; [|discriminate].
  destruct w as [| t | |]; try discriminate.
  - rewrite Hpo in Hs. unfold recv in Hs.
    destruct (queue (chan p)) as [|t q] eqn:Hq.
    + destruct (Nat.eqb_spec (senders (chan p)) 0); [lia | discriminate].
    + injection Hs as <-. counts Hi Idle (Holding t).
      constructor; simpl; rewrite ?length_insert; try done;
        simpl in *; unfold b2n in *;
        destruct (is_quit_task t); simpl in *; lia.
  - destruct t as [[|]|s].
    + injection Hs as <-. unfold send_quit_or_panic, send.
      destruct (Nat.eqb_spec (rx_refs (chan p)) 0); [lia|].
      counts Hi (Holding (Task_Message ShouldQuit)) Finished.
      constructor; simpl; rewrite ?length_insert, ?count_quit_app; try done;
        simpl in *; unfold b2n in *; lia.
    + injection Hs as <-. counts Hi (Holding (Task_Message Success)) Idle.
      constructor; simpl; rewrite ?length_insert; try done;
        simpl in *; unfold b2n in *; lia.
    + destruct (provider s); injection Hs as <-.
      * unfold send_quit_or_panic, send; simpl.
        destruct (Nat.eqb_spec (rx_refs (chan p)) 0); [lia|].
        counts Hi (Holding (Task_Socket s)) Idle.
        constructor; simpl; rewrite ?length_insert, ?count_quit_app; try done;
          simpl in *; unfold b2n in *; lia.
      * counts Hi (Holding (Task_Socket s)) Idle.
        constructor; simpl; rewrite ?length_insert; try done;
          simpl in *; unfold b2n in *; lia.
Qed.

Lemma pool_next_inv (n : nat) (l : Label) (p p' : Pool) :
  pool_inv n p -> pool_next provider l p = Some p' -> pool_inv n p'.
Proof.
  intros Hinv Hs. destruct l as [i|s| | |]; simpl in Hs.
  - exact (worker_step_inv n i p p' Hinv Hs).
  - injection Hs as <-. unfold listener_accept, send.
    destruct (listener_alive p) eqn:Hl; [|exact Hinv].
    destruct Hinv as [Hlen Hpo Hpa Hrx Htx Htok Hcons].
    destruct (Nat.eqb_spec (rx_refs (chan p)) 0); [lia|].
    constructor; simpl; rewrite ?count_quit_app; simpl; unfold b2n in *; rewrite ?Hl in *;
      try lia; done.
  - injection Hs as <-. unfold listener_accept_error, add_log.
    destruct (listener_alive p) eqn:Hl; [|exact Hinv].
    destruct Hinv as [Hlen Hpo Hpa Hrx Htx Htok Hcons].
    constructor; simpl; unfold b2n in *; rewrite ?Hl in *; try lia; done.
  - injection Hs as <-. unfold listener_end.
    destruct (listener_alive p) eqn:Hl; [|exact Hinv].
    destruct Hinv as [Hlen Hpo Hpa Hrx Htx Htok Hcons].
    constructor; simpl; unfold b2n in *; rewrite ?Hl in *; try lia; done.
  - injection Hs as <-. exact Hinv.
Qed.

Lemma reach_inv (n : nat) (p : Pool) :
  reach provider (init_pool n) p -> pool_inv n p.
Proof.
  induction 1 as [|p l p' _ IH Hs].
  - apply pool_inv_init.
  - exact (pool_next_inv n l p p' IH Hs).
Qed.

End Invariant.

Lemma run_labels_reach (provider : UnixStream -> Message) (ls : list Label) (p0 p q : Pool) :
  reach provider p0 p -> run_labels provider ls p = Some q -> reach provider p0 q.
Proof.
  revert p. induction ls as [|l ls IH]; intros p Hr Hrun; simpl in Hrun.
  - injection Hrun as <-. exact Hr.
  - destruct (pool_next provider l p) as [p'|] eqn:Hs; [|discriminate].
    exact (IH p' (reach_step _ _ _ _ _ Hr Hs) Hrun).
Qed.

Lemma terminated_stable (provider : UnixStream -> Message) (i : nat) (w : WState)
    (l : Label) (q q' : Pool) :
  is_alive w = false -> workers q !! i = Some w -> pool_next provider l q = Some q' ->
  workers q' !! i = Some w.
Proof.
  intros Hw Hi Hs. destruct l as [j|s| | |]; simpl in Hs.
  - unfold worker_step in Hs.
    destruct (decide (i = j)) as [<-|Hne].
    + rewrite Hi in Hs. destruct w; discriminate.
    + destruct (workers q !! j) as [w'|] eqn:Hj; [|discriminate].
      destruct w' as [| t | |]; try discriminate.
      * destruct (poisoned q); [injection Hs as <-; simpl;
          rewrite list_lookup_insert_ne by congruence; exact Hi|].
        destruct (recv (chan q)); try discriminate; injection Hs as <-; simpl;
          rewrite list_lookup_insert_ne by congruence; exact Hi.
      * unfold send_quit_or_panic in Hs.
        destruct t as [[|]|s]; [| |destruct (provider s)]; injection Hs as <-;
          simpl; repeat (case_match; simpl);
          rewrite list_lookup_insert_ne by congruence; exact Hi.
  - injection Hs as <-. unfold listener_accept. repeat case_match; exact Hi.
  - injection Hs as <-. unfold listener_accept_error. repeat case_match; exact Hi.
  - injection Hs as <-. unfold listener_end. repeat case_match; exact Hi.
  - injection Hs as <-. exact Hi.
Qed.

Lemma lookup_upd_same (i : nat) (w w' : WState) (ws : list WState) :
  ws !! i = Some w -> <[i := w']> ws !! i = Some w'.
Proof.
  intros Hi. apply list_lookup_insert_eq. apply lookup_lt_Some in Hi. exact Hi.
Qed.

Lemma reach_terminated_stable (provider : UnixStream -> Message) (i : nat) (w : WState)
    (p q : Pool) :
  is_alive w = false -> workers p !! i = Some w -> reach provider p q ->
  workers q !! i = Some w.
Proof.
  intros Hw Hi. induction 1 as [|q l q' _ IH Hs]; [exact Hi|].
  exact (terminated_stable provider i w l q q' Hw IH Hs).
Qed.

Lemma finished_only_by_relay (provider : UnixStream -> Message) (j : nat) (q q' : Pool) :
  worker_step provider j q = Some q' -> workers q' !! j = Some Finished ->
  workers q !! j = Some (Holding (Task_Message ShouldQuit)).
Proof.
  intros Hs Hf. unfold worker_step in Hs.
  destruct (workers q !! j) as [w|] eqn:Hj; [|discriminate].
  destruct w as [| t | |]; try discriminate.
  - destruct (poisoned q).
    + injection Hs as <-. simpl in Hf.
      rewrite (lookup_upd_same j Idle Panicked _ Hj) in Hf. discriminate.
    + destruct (recv (chan q)); try discriminate; injection Hs as <-; simpl in Hf.
      * rewrite (lookup_upd_same j Idle (Holding t) _ Hj) in Hf. discriminate.
      * rewrite (lookup_upd_same j Idle Panicked _ Hj) in Hf. discriminate.
  - destruct t as [[|]|s]; [reflexivity| |].
    + injection Hs as <-. simpl in Hf.
      rewrite (lookup_upd_same j _ Idle _ Hj) in Hf. discriminate.
    + destruct (provider s); injection Hs as <-.
      * unfold send_quit_or_panic in Hf. destruct (send _ _); simpl in Hf.
        -- rewrite (lookup_upd_same j _ Idle _ Hj) in Hf. discriminate.
        -- rewrite (lookup_upd_same j _ Panicked _ Hj) in Hf. discriminate.
      * simpl in Hf. rewrite (lookup_upd_same j _ Idle _ Hj) in Hf. discriminate.
Qed.

(** C1: a worker that dequeued [Task::Message(ShouldQuit)] sends exactly one
    new [Task::Message(ShouldQuit)] to the shared queue and breaks its loop
    for good; a worker loop only ever returns (ends other than by panic)
    from that branch. *)
Theorem relay_branch_breaks (provider : UnixStream -> Message) (n i : nat) (p : Pool) :
  reach provider (init_pool n) p ->
  workers p !! i = Some (Holding (Task_Message ShouldQuit)) ->
  (exists p', worker_step provider i p = Some p' /\
     queue (chan p') = queue (chan p) ++ [Task_Message ShouldQuit] /\
     workers p' = <[i := Finished]> (workers p) /\
     (forall q, reach provider p' q -> workers q !! i = Some Finished)) /\
  (forall j q q', worker_step provider j q = Some q' ->
     workers q' !! j = Some Finished ->
     workers q !! j = Some (Holding (Task_Message ShouldQuit))).
Proof.
  intros Hr Hi. split; [|exact (finished_only_by_relay provider)].
  pose proof (reach_inv provider n p Hr) as Hinv.
  unfold worker_step. rewrite Hi. unfold send_quit_or_panic, send.
  destruct (Nat.eqb_spec (rx_refs (chan p)) 0) as [H0|_]; [rewrite (inv_rx _ _ Hinv) in H0; lia|].
  eexists. split; [reflexivity|]. split; [reflexivity|]. split; [reflexivity|].
  intros q Hq. eapply reach_terminated_stable; [reflexivity| |exact Hq].
  exact (lookup_upd_same i _ Finished _ Hi).
Qed.

Lemma relay_branch_breaks_witness :
  let p := demo_run 2 [LAccept 0; LWorker 0; LWorker 0; LWorker 1] in
  reach demo_provider (init_pool 2) p /\
  workers p !! 1 = Some (Holding (Task_Message ShouldQuit)) /\
  exists p', worker_step demo_provider 1 p = Some p' /\
     queue (chan p') = queue (chan p) ++ [Task_Message ShouldQuit] /\
     workers p' = <[1 := Finished]> (workers p) /\
     (forall q, reach demo_provider p' q -> workers q !! 1 = Some Finished).
Proof.
  intros p.
  assert (Hr : reach demo_provider (init_pool 2) p)
    by (apply (run_labels_reach demo_provider [LAccept 0; LWorker 0; LWorker 0; LWorker 1]
                 (init_pool 2) (init_pool 2)); [constructor | vm_compute; reflexivity]).
  assert (Hi : workers p !! 1 = Some (Holding (Task_Message ShouldQuit)))
    by (vm_compute; reflexivity).
  split; [exact Hr|]. split; [exact Hi|].
  exact (proj1 (relay_branch_breaks demo_provider 2 1 p Hr Hi)).
Defined.

(** C2: when a unit of work returns [ShouldQuit], the worker sends exactly
    one [Task::Message(ShouldQuit)] to the shared queue, goes back to the top
    of its loop, and its next step dequeues again. *)
Theorem should_quit_outcome_relays_and_continues (provider : UnixStream -> Message)
    (n i : nat) (s : UnixStream) (p : Pool) :
  reach provider (init_pool n) p ->
  workers p !! i = Some (Holding (Task_Socket s)) ->
  provider s = ShouldQuit ->
  exists p', worker_step provider i p = Some p' /\
    queue (chan p') = queue (chan p) ++ [Task_Message ShouldQuit] /\
    workers p' = <[i := Idle]> (workers p) /\
    exists t p'', worker_step provider i p' = Some p'' /\
                  workers p'' !! i = Some (Holding t).
Proof.
  intros Hr Hi Hq.
  pose proof (reach_inv provider n p Hr) as Hinv.
  unfold worker_step. rewrite Hi, Hq. unfold send_quit_or_panic, send. simpl.
  destruct (Nat.eqb_spec (rx_refs (chan p)) 0) as [H0|_]; [rewrite (inv_rx _ _ Hinv) in H0; lia|].
  eexists. split; [reflexivity|]. split; [reflexivity|]. split; [reflexivity|].
  simpl. rewrite (lookup_upd_same i _ Idle _ Hi), (inv_poison _ _ Hinv).
  unfold recv. simpl. destruct (queue (chan p)) as [|t q]; simpl.
  - eexists _, _. split; [reflexivity|]. simpl.
    apply list_lookup_insert_eq. rewrite length_insert. exact (lookup_lt_Some _ _ _ Hi).
  - eexists _, _. split; [reflexivity|]. simpl.
    apply list_lookup_insert_eq. rewrite length_insert. exact (lookup_lt_Some _ _ _ Hi).
Qed.

Lemma should_quit_outcome_relays_and_continues_witness :
  let p := demo_run 2 [LAccept 0; LWorker 0] in
  reach demo_provider (init_pool 2) p /\
  workers p !! 0 = Some (Holding (Task_Socket 0)) /\
  demo_provider 0 = ShouldQuit /\
  exists p', worker_step demo_provider 0 p = Some p' /\
    queue (chan p') = queue (chan p) ++ [Task_Message ShouldQuit] /\
    workers p' = <[0 := Idle]> (workers p) /\
    exists t p'', worker_step demo_provider 0 p' = Some p'' /\
                  workers p'' !! 0 = Some (Holding t).
Proof.
  intros p.
  assert (Hr : reach demo_provider (init_pool 2) p)
    by (apply (run_labels_reach demo_provider [LAccept 0; LWorker 0]
                 (init_pool 2) (init_pool 2)); [constructor | vm_compute; reflexivity]).
  assert (Hi : workers p !! 0 = Some (Holding (Task_Socket 0))) by (vm_compute; reflexivity).
  assert (Hq : demo_provider 0 = ShouldQuit) by reflexivity.
  split; [exact Hr|]. split; [exact Hi|]. split; [exact Hq|].
  exact (should_quit_outcome_relays_and_continues demo_provider 2 0 0 p Hr Hi Hq).
Defined.

(** C5: a [Success] outcome of a unit of work, and a dequeued
    [Task::Message(Success)], leave the queue untouched, terminate no
    worker, and send the worker back to the top of its loop. *)
Theorem success_is_isolated (provider : UnixStream -> Message) (i : nat) (t : Task)
    (p : Pool) :
  workers p !! i = Some (Holding t) ->
  match t with Task_Socket s => provider s = Success | Task_Message m => m = Success end ->
  exists p', worker_step provider i p = Some p' /\
    chan p' = chan p /\
    workers p' = <[i := Idle]> (workers p) /\
    count_w is_alive (workers p') = count_w is_alive (workers p) /\
    count_w is_finished (workers p') = count_w is_finished (workers p) /\
    count_w is_panicked (workers p') = count_w is_panicked (workers p).
Proof.
  intros Hi Ht. unfold worker_step. rewrite Hi.
  counts Hi (Holding t) Idle.
  destruct t as [m|s].
  - subst m. eexists. split; [reflexivity|]. simpl in *. unfold b2n in *.
    repeat split; lia.
  - rewrite Ht. eexists. split; [reflexivity|]. simpl in *. unfold b2n in *.
    repeat split; lia.
Qed.

Lemma success_is_isolated_witness :
  let p := demo_run 1 [LAccept 1; LWorker 0] in
  workers p !! 0 = Some (Holding (Task_Socket 1)) /\
  demo_provider 1 = Success /\
  exists p', worker_step demo_provider 0 p = Some p' /\
    chan p' = chan p /\
    workers p' = <[0 := Idle]> (workers p) /\
    count_w is_alive (workers p') = count_w is_alive (workers p) /\
    count_w is_finished (workers p') = count_w is_finished (workers p) /\
    count_w is_panicked (workers p') = count_w is_panicked (workers p).
Proof.
  intros p.
  assert (Hi : workers p !! 0 = Some (Holding (Task_Socket 1))) by (vm_compute; reflexivity).
  assert (Hs : demo_provider 1 = Success) by reflexivity.
  split; [exact Hi|]. split; [exact Hs|].
  exact (success_is_isolated demo_provider 0 (Task_Socket 1) p Hi Hs).
Defined.

(** C6 (counterexample): with the receiver gone, the relay send after a
    [ShouldQuit] outcome fails; the worker does not go on with its loop, it
    panics. *)
Lemma failed_relay_send_not_only_logged :
  exists p', worker_step demo_provider 0 dropped_rx_pool = Some p' /\
    log p' = [ErrSendShouldQuit] /\
    workers p' !! 0 = Some Panicked /\
    workers p' !! 0 <> Some Idle.
Proof.
  eexists. split; [vm_compute; reflexivity|].
  split; [reflexivity|]. split; [reflexivity|]. discriminate.
Qed.

(** C6 (amended): a failed send of the relayed [Task::Message(ShouldQuit)],
    in the connection branch or in the control branch, is logged, enqueues
    nothing, and then ends the worker by a panic ([unwrap]); in a pool
    started by [bind] the send never fails, since every live worker keeps a
    handle on the receiver. *)
Theorem failed_relay_send_panics (provider : UnixStream -> Message) (i : nat) (t : Task)
    (p : Pool) :
  workers p !! i = Some (Holding t) ->
  (t = Task_Message ShouldQuit \/ exists s, t = Task_Socket s /\ provider s = ShouldQuit) ->
  rx_refs (chan p) = 0 ->
  (exists p', worker_step provider i p = Some p' /\
     queue (chan p') = queue (chan p) /\
     workers p' = <[i := Panicked]> (workers p) /\
     log p' = log p ++ [ErrSendShouldQuit]) /\
  (forall n q, reach provider (init_pool n) q -> 0 < rx_refs (chan q)).
Proof.
  intros Hi Ht H0. split.
  - unfold worker_step. rewrite Hi.
    destruct Ht as [->|[s [-> Hs]]].
    + unfold send_quit_or_panic, send. rewrite H0. simpl.
      eexists. repeat split.
    + rewrite Hs. unfold send_quit_or_panic, send. simpl. rewrite H0. simpl.
      eexists. repeat split.
  - intros n q Hr. rewrite (inv_rx _ _ (reach_inv provider n q Hr)). lia.
Qed.

Lemma failed_relay_send_panics_witness :
  workers dropped_rx_pool !! 0 = Some (Holding (Task_Socket 0)) /\
  rx_refs (chan dropped_rx_pool) = 0 /\
  exists p', worker_step demo_provider 0 dropped_rx_pool = Some p' /\
     queue (chan p') = queue (chan dropped_rx_pool) /\
     workers p' = <[0 := Panicked]> (workers dropped_rx_pool) /\
     log p' = log dropped_rx_pool ++ [ErrSendShouldQuit].
Proof.
  assert (Hi : workers dropped_rx_pool !! 0 = Some (Holding (Task_Socket 0))) by reflexivity.
  assert (H0 : rx_refs (chan dropped_rx_pool) = 0) by reflexivity.
  split; [exact Hi|]. split; [exact H0|].
  refine (proj1 (failed_relay_send_panics demo_provider 0 (Task_Socket 0) dropped_rx_pool
                   Hi _ H0)).
  right. exists 0. split; reflexivity.
Defined.

(** C7: when [recv] reports that no sender is left, the worker ends at
    once (the [unwrap] panics), enqueues nothing, and never moves again. *)
Theorem broken_channel_stops_worker (provider : UnixStream -> Message) (i : nat) (p : Pool) :
  workers p !! i = Some Idle ->
  poisoned p = false ->
  queue (chan p) = [] ->
  senders (chan p) = 0 ->
  exists p', worker_step provider i p = Some p' /\
    workers p' = <[i := Panicked]> (workers p) /\
    queue (chan p') = [] /\
    triggers p' = triggers p /\
    log p' = log p ++ [ErrRecv] /\
    (forall q, reach provider p' q -> workers q !! i = Some Panicked).
Proof.
  intros Hi Hpo Hq Hs. unfold worker_step. rewrite Hi, Hpo. unfold recv.
  rewrite Hq, Hs. simpl. eexists. split; [reflexivity|].
  split; [reflexivity|]. split; [simpl; exact Hq|]. split; [reflexivity|].
  split; [reflexivity|].
  intros q Hr. eapply reach_terminated_stable; [reflexivity| |exact Hr].
  exact (lookup_upd_same i _ Panicked _ Hi).
Qed.

Lemma broken_channel_stops_worker_witness :
  workers broken_channel_pool !! 0 = Some Idle /\
  poisoned broken_channel_pool = false /\
  queue (chan broken_channel_pool) = [] /\
  senders (chan broken_channel_pool) = 0 /\
  exists p', worker_step demo_provider 0 broken_channel_pool = Some p' /\
    workers p' = <[0 := Panicked]> (workers broken_channel_pool) /\
    queue (chan p') = [] /\
    triggers p' = triggers broken_channel_pool /\
    log p' = log broken_channel_pool ++ [ErrRecv] /\
    (forall q, reach demo_provider p' q -> workers q !! 0 = Some Panicked).
Proof.
  assert (H1 : workers broken_channel_pool !! 0 = Some Idle) by reflexivity.
  assert (H2 : poisoned broken_channel_pool = false) by reflexivity.
  assert (H3 : queue (chan broken_channel_pool) = []) by reflexivity.
  assert (H4 : senders (chan broken_channel_pool) = 0) by reflexivity.
  split; [exact H1|]. split; [exact H2|]. split; [exact H3|]. split; [exact H4|].
  exact (broken_channel_stops_worker demo_provider 0 broken_channel_pool H1 H2 H3 H4).
Defined.

(** C3 (counterexample): right after a worker has dequeued a
    [Task::Message(ShouldQuit)] and before it sends the relay and breaks,
    one control task has been consumed and no worker has terminated. *)
Lemma relay_conservation_fails_mid_relay :
  ~ (forall p, reach demo_provider (init_pool 2) p ->
       consumed p = count_w is_finished (workers p)).
Proof.
  intros H.
  assert (Hr : reach demo_provider (init_pool 2)
                 (demo_run 2 [LAccept 0; LWorker 0; LWorker 0; LWorker 1]))
    by (apply (run_labels_reach demo_provider [LAccept 0; LWorker 0; LWorker 0; LWorker 1]
                 (init_pool 2) (init_pool 2)); [constructor | vm_compute; reflexivity]).
  specialize (H _ Hr). vm_compute in H. discriminate.
Qed.

(** C3 (amended): in every reachable state, the control tasks consumed
    equal the workers terminated through the control branch plus the
    workers that hold a dequeued [ShouldQuit] they have not relayed yet
    (so the two are equal whenever no worker is mid-relay); and the
    [ShouldQuit] tasks in the queue plus those held equal the [ShouldQuit]
    outcomes of units of work, so relaying neither loses nor multiplies the
    signal. *)
Theorem relay_conservation (provider : UnixStream -> Message) (n : nat) (p : Pool) :
  reach provider (init_pool n) p ->
  consumed p = count_w is_finished (workers p) + count_w holds_quit (workers p) /\
  (count_w holds_quit (workers p) = 0 -> consumed p = count_w is_finished (workers p)) /\
  count_quit (queue (chan p)) + count_w holds_quit (workers p) = triggers p.
Proof.
  intros Hr. destruct (reach_inv provider n p Hr) as [_ _ _ _ _ Htok Hcons].
  split; [exact Hcons|]. split; [intros H0; lia|exact Htok].
Qed.

Lemma relay_conservation_witness :
  let p := demo_run 2 [LAccept 0; LWorker 0; LWorker 0; LWorker 1] in
  reach demo_provider (init_pool 2) p /\
  consumed p = count_w is_finished (workers p) + count_w holds_quit (workers p) /\
  (count_w holds_quit (workers p) = 0 -> consumed p = count_w is_finished (workers p)) /\
  count_quit (queue (chan p)) + count_w holds_quit (workers p) = triggers p.
Proof.
  intros p.
  assert (Hr : reach demo_provider (init_pool 2) p)
    by (apply (run_labels_reach demo_provider [LAccept 0; LWorker 0; LWorker 0; LWorker 1]
                 (init_pool 2) (init_pool 2)); [constructor | vm_compute; reflexivity]).
  split; [exact Hr|]. exact (relay_conservation demo_provider 2 p Hr).
Defined.

Lemma bind_start_ok (os : Os) (opts : Options) (ev : list Event) (p0 : Pool) :
  bind_start os opts = (ev, inl p0) -> p0 = init_pool (workers_opt opts).
Proof.
  unfold bind_start, remove_stale, path_to_str, unix_listener_bind.
  destruct (path_exists os), (remove_ok os), (path_utf8 os), (bind_ok os);
    simpl; intros H; injection H; try discriminate; intros; congruence.
Qed.







(** C10: with [workers: 0], [bind] spawns no worker, the join loop has
    nothing to wait for, and [bind] returns [Ok(())] right after the socket
    is bound, from the very first state of the pool. *)
Theorem zero_workers_return_at_once (os : Os) (ev : list Event) (p0 : Pool) :
  bind_start os {| workers_opt := 0 |} = (ev, inl p0) ->
  workers p0 = [] /\ In InfoBound ev /\ ~ In SpawnWorker ev /\
  bind_finish p0 = Some ([InfoUnbinding], inl tt).
Proof.
  intros Hb. pose proof (bind_start_ok _ _ _ _ Hb) as Hp0. subst p0.
  split; [reflexivity|]. split; [|split; [|reflexivity]]; revert Hb;
    unfold bind_start, remove_stale, path_to_str, unix_listener_bind;
    destruct (path_exists os), (remove_ok os), (path_utf8 os), (bind_ok os);
    simpl; intros H; injection H as <-; try discriminate; simpl; intuition discriminate.
Qed.

Lemma zero_workers_return_at_once_witness :
  bind_start os_ok {| workers_opt := 0 |} =
    ([FsRemoveFile; InfoBound; SpawnListener], inl (init_pool 0)) /\
  workers (init_pool 0) = [] /\ In InfoBound [FsRemoveFile; InfoBound; SpawnListener] /\
  ~ In SpawnWorker [FsRemoveFile; InfoBound; SpawnListener] /\
  bind_finish (init_pool 0) = Some ([InfoUnbinding], inl tt).
Proof.
  assert (Hb : bind_start os_ok {| workers_opt := 0 |} =
    ([FsRemoveFile; InfoBound; SpawnListener], inl (init_pool 0))) by reflexivity.
  split; [exact Hb|]. exact (zero_workers_return_at_once os_ok _ _ Hb).
Defined.

(** ** Lemmas for the termination of the pool *)

Lemma quit_pos_app (q r : list Task) :
  0 < count_quit q -> quit_pos (q ++ r) = quit_pos q.
Proof.
  induction q as [|x q IH]; simpl; [lia|].
  destruct (is_quit_task x); simpl; [reflexivity|]. intros H. rewrite IH; [reflexivity|lia].
Qed.

Lemma count_w_bound (f : WState -> bool) (ws : list WState) :
  count_w f ws <= length ws.
Proof. induction ws as [|w ws IH]; simpl; [lia|destruct (f w); lia]. Qed.

Lemma count_w_split (ws : list WState) :
  count_w is_alive ws + count_w is_finished ws + count_w is_panicked ws = length ws.
Proof. induction ws as [|w ws IH]; simpl; [lia|destruct w; simpl; lia]. Qed.

Lemma holds_quit_alive (ws : list WState) :
  count_w holds_quit ws <= count_w is_alive ws.
Proof. induction ws as [|w ws IH]; simpl; [lia|destruct w as [|[[|]|]| |]; simpl; lia]. Qed.

Lemma triggers_step (provider : UnixStream -> Message) (l : Label) (p p' : Pool) :
  pool_next provider l p = Some p' -> triggers p <= triggers p'.
Proof.
  intros Hs. destruct l as [j|s| | |]; simpl in Hs; try (injection Hs as <-).
  - unfold worker_step in Hs.
    destruct (workers p !! j) as [[| t | |]|]; try discriminate.
    + destruct (poisoned p); [injection Hs as <-; simpl; lia|].
      destruct (recv (chan p)); try discriminate; injection Hs as <-; simpl; lia.
    + unfold send_quit_or_panic in Hs.
      destruct t as [[|]|s]; [| |destruct (provider s)]; injection Hs as <-;
        unfold upd, add_log, add_trigger; repeat case_match; cbn; lia.
  - unfold listener_accept. unfold upd, add_log, add_trigger; repeat case_match; cbn; lia.
  - unfold listener_accept_error. unfold upd, add_log, add_trigger; repeat case_match; cbn; lia.
  - unfold listener_end. unfold upd, add_log, add_trigger; repeat case_match; cbn; lia.
  - lia.
Qed.

(** Outside worker [w]'s own steps, its state does not change. *)
Lemma other_step_keeps (provider : UnixStream -> Message) (w : nat) (l : Label) (p p' : Pool) :
  pool_next provider l p = Some p' -> l <> LWorker w ->
  workers p' !! w = workers p !! w.
Proof.
  intros Hs Hl. destruct l as [j|s| | |]; simpl in Hs; try (injection Hs as <-).
  - assert (Hne : j <> w) by congruence. unfold worker_step in Hs.
    destruct (workers p !! j) as [[| t | |]|]; try discriminate.
    + destruct (poisoned p); [injection Hs as <-; simpl; apply list_lookup_insert_ne; exact Hne|].
      destruct (recv (chan p)); try discriminate; injection Hs as <-; simpl;
        apply list_lookup_insert_ne; exact Hne.
    + unfold send_quit_or_panic in Hs.
      destruct t as [[|]|s]; [| |destruct (provider s)]; injection Hs as <-;
        repeat (case_match; simpl); apply list_lookup_insert_ne; exact Hne.
  - unfold listener_accept. repeat case_match; reflexivity.
  - unfold listener_accept_error. repeat case_match; reflexivity.
  - unfold listener_end. repeat case_match; reflexivity.
  - reflexivity.
Qed.

Lemma alive_step (provider : UnixStream -> Message) (n : nat) (l : Label) (p p' : Pool) :
  pool_inv n p -> pool_next provider l p = Some p' -> alive p' <= alive p.
Proof.
  intros Hinv Hs. unfold alive.
  destruct l as [j|s| | |]; simpl in Hs; try (injection Hs as <-).
  - unfold worker_step in Hs.
    destruct (workers p !! j) as [[| t | |]|] eqn:Hj; try discriminate.
    + destruct (poisoned p); [injection Hs as <-; simpl;
        pose proof (count_w_insert is_alive _ _ _ Panicked Hj); simpl in *; lia|].
      destruct (recv (chan p)); try discriminate; injection Hs as <-; simpl;
        [pose proof (count_w_insert is_alive _ _ _ (Holding t) Hj)
        |pose proof (count_w_insert is_alive _ _ _ Panicked Hj)]; simpl in *; lia.
    + unfold send_quit_or_panic in Hs.
      destruct t as [[|]|s]; [| |destruct (provider s)]; injection Hs as <-;
        repeat case_match; cbn;
        match goal with |- count_w _ (<[_ := ?w']> _) <= _ =>
          pose proof (count_w_insert is_alive _ _ _ w' Hj) end; simpl in *; lia.
  - unfold listener_accept. repeat case_match; cbn; lia.
  - unfold listener_accept_error. repeat case_match; cbn; lia.
  - unfold listener_end. repeat case_match; cbn; lia.
  - lia.
Qed.


(** With a single shutdown token, no step moves the pool up in the
    lexicographic order (live workers, [token_dist]). *)
Lemma step_le (provider : UnixStream -> Message) (n : nat) (l : Label) (p p' : Pool) :
  pool_inv n p -> triggers p = 1 -> pool_next provider l p = Some p' ->
  triggers p' = 1 -> le_m p' p.
Proof.
  intros Hinv Ht Hs Ht'. pose proof Hinv as [Hlen Hpo Hpa Hrx Htx Htok Hcons].
  unfold le_m, token_dist, alive.
  destruct l as [j|s| | |]; simpl in Hs; try (injection Hs as <-).
  - unfold worker_step in Hs.
    destruct (workers p !! j) as [[| t | |]|] eqn:Hj; try discriminate.
    + rewrite Hpo in Hs. unfold recv in Hs.
      destruct (queue (chan p)) as [|x q] eqn:Hq.
      * destruct (Nat.eqb_spec (senders (chan p)) 0); [lia|discriminate].
      * injection Hs as <-. counts Hj Idle (Holding x). cbn in *.
        simpl. destruct (is_quit_task x); simpl in *; unfold b2n in *; dist_cases; lia.
    + destruct t as [[|]|s].
      * injection Hs as <-. unfold send_quit_or_panic, send.
        destruct (Nat.eqb_spec (rx_refs (chan p)) 0); [lia|].
        counts Hj (Holding (Task_Message ShouldQuit)) Finished. cbn in *.
        unfold b2n in *. left. lia.
      * injection Hs as <-. counts Hj (Holding (Task_Message Success)) Idle. cbn in *.
        unfold b2n in *. right. split; [lia|]. dist_cases; lia.
      * destruct (provider s); injection Hs as <-.
        -- unfold send_quit_or_panic in Ht'. cbn in Ht'.
           destruct (send _ _); cbn in Ht'; lia.
        -- counts Hj (Holding (Task_Socket s)) Idle. cbn in *.
           unfold b2n in *. right. split; [lia|]. dist_cases; lia.
  - unfold listener_accept. destruct (listener_alive p); [|right; split; lia].
    unfold send. destruct (Nat.eqb_spec (rx_refs (chan p)) 0); [lia|]. cbn.
    right. split; [lia|]. dist_cases; [|lia].
    rewrite quit_pos_app; lia.
  - unfold listener_accept_error. destruct (listener_alive p); cbn; right; split; lia.
  - unfold listener_end. destruct (listener_alive p); cbn; right; split; lia.
  - right. split; lia.
Qed.

(** The holder of the token relays it and ends: one live worker less. *)
Lemma relay_lt (provider : UnixStream -> Message) (n h : nat) (p p' : Pool) :
  pool_inv n p -> workers p !! h = Some (Holding (Task_Message ShouldQuit)) ->
  worker_step provider h p = Some p' -> lt_m p' p.
Proof.
  intros Hinv Hh Hs. left. unfold alive.
  unfold worker_step in Hs. rewrite Hh in Hs. injection Hs as <-.
  unfold send_quit_or_panic, send.
  destruct (Nat.eqb_spec (rx_refs (chan p)) 0); [rewrite (inv_rx _ _ Hinv) in *; lia|].
  pose proof (count_w_insert is_alive _ _ _ Finished Hh). cbn in *. lia.
Qed.

(** With the token in the queue, any dequeue brings it closer. *)
Lemma dequeue_lt (provider : UnixStream -> Message) (n w : nat) (p p' : Pool) :
  pool_inv n p -> triggers p = 1 -> count_w holds_quit (workers p) = 0 ->
  workers p !! w = Some Idle -> worker_step provider w p = Some p' -> lt_m p' p.
Proof.
  intros Hinv Ht H0 Hw Hs. pose proof Hinv as [Hlen Hpo Hpa Hrx Htx Htok Hcons].
  unfold lt_m, token_dist, alive.
  unfold worker_step in Hs. rewrite Hw, Hpo in Hs. unfold recv in Hs.
  destruct (queue (chan p)) as [|x q] eqn:Hq.
  - destruct (Nat.eqb_spec (senders (chan p)) 0); [lia|discriminate].
  - injection Hs as <-. counts Hw Idle (Holding x). cbn in *.
    destruct (is_quit_task x); simpl in *; unfold b2n in *; right; split; try lia;
      dist_cases; lia.
Qed.

Lemma holding_enabled (provider : UnixStream -> Message) (h : nat) (t : Task) (p : Pool) :
  workers p !! h = Some (Holding t) -> enabled provider h p.
Proof.
  intros Hh. unfold enabled, worker_step. rewrite Hh.
  destruct t as [[|]|s]; [| |destruct (provider s)]; discriminate.
Qed.

Lemma idle_enabled (provider : UnixStream -> Message) (w : nat) (p : Pool) :
  workers p !! w = Some Idle -> poisoned p = false -> queue (chan p) <> [] ->
  enabled provider w p.
Proof.
  intros Hw Hpo Hq. unfold enabled, worker_step. rewrite Hw, Hpo. unfold recv.
  destruct (queue (chan p)); [congruence|discriminate].
Qed.

(** A worker holding anything but the token goes back to the top of its
    loop. *)
Lemma dispatch_idle (provider : UnixStream -> Message) (n w : nat) (t : Task) (p p' : Pool) :
  pool_inv n p -> workers p !! w = Some (Holding t) -> is_quit_task t = false ->
  worker_step provider w p = Some p' -> workers p' !! w = Some Idle.
Proof.
  intros Hinv Hw Ht Hs. unfold worker_step in Hs. rewrite Hw in Hs.
  destruct t as [[|]|s]; try discriminate.
  - injection Hs as <-. exact (lookup_upd_same w _ Idle _ Hw).
  - destruct (provider s); injection Hs as <-.
    + unfold send_quit_or_panic, send. cbn.
      destruct (Nat.eqb_spec (rx_refs (chan p)) 0); [rewrite (inv_rx _ _ Hinv) in *; lia|].
      exact (lookup_upd_same w _ Idle _ Hw).
    + exact (lookup_upd_same w _ Idle _ Hw).
Qed.

Lemma lt_le_m (a b c : Pool) : lt_m a b -> le_m b c -> lt_m a c.
Proof. unfold lt_m, le_m. lia. Qed.

Lemma le_m_cases (p' p : Pool) :
  le_m p' p -> lt_m p' p \/ (alive p' = alive p /\ token_dist p' = token_dist p).
Proof. unfold lt_m, le_m. lia. Qed.

Lemma count_w_lookup (f : WState -> bool) (ws : list WState) :
  0 < count_w f ws -> exists i w, ws !! i = Some w /\ f w = true.
Proof.
  induction ws as [|x ws IH]; simpl; [lia|].
  destruct (f x) eqn:Hx; intros H.
  - exists 0, x. split; [reflexivity|exact Hx].
  - destruct (IH H) as [i [w [Hi Hw]]]. exists (S i), w. split; [exact Hi|exact Hw].
Qed.

Lemma lookup_count_w (f : WState -> bool) (ws : list WState) (i : nat) (w : WState) :
  ws !! i = Some w -> f w = true -> 0 < count_w f ws.
Proof.
  revert i. induction ws as [|x ws IH]; intros [|i] Hi Hw; simpl in *; try discriminate.
  - injection Hi as ->. rewrite Hw. lia.
  - specialize (IH i Hi Hw). lia.
Qed.

Section Drain.
Variable provider : UnixStream -> Message.
Variable n : nat.
Variables (ps : nat -> Pool) (ls : nat -> Label).
Hypothesis Hinit : ps 0 = init_pool n.
Hypothesis Hrun : is_run provider ps ls.
Hypothesis Hfair : forall i, i < n -> weakly_fair provider ps ls i.
Hypothesis Hone : forall t, triggers (ps t) <= 1.
Variable t0 : nat.
Hypothesis Ht0 : triggers (ps t0) = 1.

Lemma run_reach (t : nat) : reach provider (init_pool n) (ps t).
Proof.
  induction t as [|t IH]; [rewrite Hinit; constructor|].
  exact (reach_step _ _ _ _ _ IH (Hrun t)).
Qed.

Lemma run_inv (t : nat) : pool_inv n (ps t).
Proof. exact (reach_inv provider n _ (run_reach t)). Qed.

Lemma run_triggers (t : nat) : t0 <= t -> triggers (ps t) = 1.
Proof.
  induction 1 as [|t _ IH]; [exact Ht0|].
  pose proof (triggers_step provider _ _ _ (Hrun t)). pose proof (Hone (S t)). lia.
Qed.

Lemma run_le (t : nat) : t0 <= t -> le_m (ps (S t)) (ps t).
Proof.
  intros Ht. apply (step_le provider n (ls t)); [apply run_inv|apply run_triggers; exact Ht
    |exact (Hrun t)|apply run_triggers; lia].
Qed.

Lemma worker_lt_n (w : nat) (x : WState) (t : nat) : workers (ps t) !! w = Some x -> w < n.
Proof.
  intros H. apply lookup_lt_Some in H. rewrite (inv_length _ _ (run_inv t)) in H. exact H.
Qed.

Lemma run_worker_step (t w : nat) : ls t = LWorker w ->
  worker_step provider w (ps t) = Some (ps (S t)).
Proof. intros Hl. pose proof (Hrun t) as H. rewrite Hl in H. exact H. Qed.

Lemma held_lower (h m : nat) : forall t,
  t0 <= t -> workers (ps t) !! h = Some (Holding (Task_Message ShouldQuit)) ->
  (~ enabled provider h (ps (t + m)) \/ ls (t + m) = LWorker h) ->
  exists t', t <= t' /\ lt_m (ps t') (ps t).
Proof.
  induction m as [|m IH]; intros t Ht Hh Hf.
  - rewrite Nat.add_0_r in Hf. destruct Hf as [Hf|Hl].
    + exfalso. exact (Hf (holding_enabled provider h _ _ Hh)).
    + exists (S t). split; [lia|].
      exact (relay_lt provider n h _ _ (run_inv t) Hh (run_worker_step t h Hl)).
  - destruct (ls t) as [j| | | |] eqn:Hl;
      try (destruct (decide (j = h)) as [->|Hne]);
      try (exists (S t); split; [lia|];
           exact (relay_lt provider n h _ _ (run_inv t) Hh (run_worker_step t h Hl)));
      (assert (Hh' : workers (ps (S t)) !! h = Some (Holding (Task_Message ShouldQuit)))
         by (rewrite (other_step_keeps provider h (ls t) _ _ (Hrun t)); [exact Hh|];
             rewrite Hl; congruence));
      (rewrite <- Nat.add_succ_comm in Hf;
       destruct (IH (S t) ltac:(lia) Hh' Hf) as [t' [Ht' Hlt]];
       exists t'; split; [lia|exact (lt_le_m _ _ _ Hlt (run_le t Ht))]).
Qed.

Lemma no_holder_dist (p : Pool) :
  count_w holds_quit (workers p) = 0 <-> token_dist p <> 0.
Proof. unfold token_dist. dist_cases; lia. Qed.

Lemma run_queue_nonempty (t : nat) :
  t0 <= t -> count_w holds_quit (workers (ps t)) = 0 -> queue (chan (ps t)) <> [].
Proof.
  intros Ht H0 Hq. pose proof (inv_tokens _ _ (run_inv t)) as Htok.
  rewrite Hq, H0, (run_triggers t Ht) in Htok. simpl in Htok. lia.
Qed.

Lemma queue_lower_idle (w m : nat) : forall t,
  t0 <= t -> count_w holds_quit (workers (ps t)) = 0 ->
  workers (ps t) !! w = Some Idle ->
  (~ enabled provider w (ps (t + m)) \/ ls (t + m) = LWorker w) ->
  exists t', t <= t' /\ lt_m (ps t') (ps t).
Proof.
  induction m as [|m IH]; intros t Ht H0 Hw Hf.
  - rewrite Nat.add_0_r in Hf. destruct Hf as [Hf|Hl].
    + exfalso. apply Hf. apply idle_enabled; [exact Hw|exact (inv_poison _ _ (run_inv t))|].
      exact (run_queue_nonempty t Ht H0).
    + exists (S t). split; [lia|].
      exact (dequeue_lt provider n w _ _ (run_inv t) (run_triggers t Ht) H0 Hw
               (run_worker_step t w Hl)).
  - destruct (ls t) as [j| | | |] eqn:Hl;
      try (destruct (decide (j = w)) as [->|Hne]);
      try (exists (S t); split; [lia|];
           exact (dequeue_lt provider n w _ _ (run_inv t) (run_triggers t Ht) H0 Hw
                    (run_worker_step t w Hl)));
      (destruct (le_m_cases _ _ (run_le t Ht)) as [Hlt|[Ha Hd]];
       [exists (S t); split; [lia|exact Hlt]|]);
      (assert (Hw' : workers (ps (S t)) !! w = Some Idle)
         by (rewrite (other_step_keeps provider w (ls t) _ _ (Hrun t)); [exact Hw|];
             rewrite Hl; congruence));
      (assert (H0' : count_w holds_quit (workers (ps (S t))) = 0)
         by (apply no_holder_dist; rewrite Hd; apply no_holder_dist; exact H0));
      (rewrite <- Nat.add_succ_comm in Hf;
       destruct (IH (S t) ltac:(lia) H0' Hw' Hf) as [t' [Ht' Hlt]];
       exists t'; split; [lia|exact (lt_le_m _ _ _ Hlt (run_le t Ht))]).
Qed.

Lemma queue_lower_holding (w m : nat) : forall t x,
  t0 <= t -> count_w holds_quit (workers (ps t)) = 0 ->
  workers (ps t) !! w = Some (Holding x) -> is_quit_task x = false ->
  (~ enabled provider w (ps (t + m)) \/ ls (t + m) = LWorker w) ->
  exists t', t <= t' /\ lt_m (ps t') (ps t).
Proof.
  assert (Hown : forall t x, t0 <= t -> count_w holds_quit (workers (ps t)) = 0 ->
            workers (ps t) !! w = Some (Holding x) -> is_quit_task x = false ->
            ls t = LWorker w -> exists t', t <= t' /\ lt_m (ps t') (ps t)).
  { intros t x Ht H0 Hw Hx Hl.
    pose proof (dispatch_idle provider n w x _ _ (run_inv t) Hw Hx (run_worker_step t w Hl))
      as Hw'.
    destruct (le_m_cases _ _ (run_le t Ht)) as [Hlt|[Ha Hd]];
      [exists (S t); split; [lia|exact Hlt]|].
    assert (H0' : count_w holds_quit (workers (ps (S t))) = 0)
      by (apply no_holder_dist; rewrite Hd; apply no_holder_dist; exact H0).
    destruct (Hfair w (worker_lt_n w _ t Hw) (S t)) as [m' Hf'].
    destruct (queue_lower_idle w m' (S t) ltac:(lia) H0' Hw' Hf') as [t' [Ht' Hlt]].
    exists t'. split; [lia|exact (lt_le_m _ _ _ Hlt (run_le t Ht))]. }
  induction m as [|m IH]; intros t x Ht H0 Hw Hx Hf.
  - rewrite Nat.add_0_r in Hf. destruct Hf as [Hf|Hl].
    + exfalso. exact (Hf (holding_enabled provider w _ _ Hw)).
    + exact (Hown t x Ht H0 Hw Hx Hl).
  - destruct (ls t) as [j| | | |] eqn:Hl;
      try (destruct (decide (j = w)) as [->|Hne]);
      try (exact (Hown t x Ht H0 Hw Hx Hl));
      (destruct (le_m_cases _ _ (run_le t Ht)) as [Hlt|[Ha Hd]];
       [exists (S t); split; [lia|exact Hlt]|]);
      (assert (Hw' : workers (ps (S t)) !! w = Some (Holding x))
         by (rewrite (other_step_keeps provider w (ls t) _ _ (Hrun t)); [exact Hw|];
             rewrite Hl; congruence));
      (assert (H0' : count_w holds_quit (workers (ps (S t))) = 0)
         by (apply no_holder_dist; rewrite Hd; apply no_holder_dist; exact H0));
      (rewrite <- Nat.add_succ_comm in Hf;
       destruct (IH (S t) x ltac:(lia) H0' Hw' Hx Hf) as [t' [Ht' Hlt]];
       exists t'; split; [lia|exact (lt_le_m _ _ _ Hlt (run_le t Ht))]).
Qed.

Lemma eventually_lower (t : nat) :
  t0 <= t -> 0 < alive (ps t) -> exists t', t <= t' /\ lt_m (ps t') (ps t).
Proof.
  intros Ht Ha.
  destruct (Nat.eq_dec (count_w holds_quit (workers (ps t))) 0) as [H0|H0].
  - destruct (count_w_lookup is_alive _ Ha) as [w [x [Hw Hx]]].
    destruct (Hfair w (worker_lt_n w _ t Hw) t) as [m Hf].
    destruct x as [|x| |]; try discriminate.
    + exact (queue_lower_idle w m t Ht H0 Hw Hf).
    + destruct (is_quit_task x) eqn:Hq.
      * exfalso. pose proof (lookup_count_w holds_quit _ w _ Hw Hq). lia.
      * exact (queue_lower_holding w m t x Ht H0 Hw Hq Hf).
  - destruct (count_w_lookup holds_quit (workers (ps t)) ltac:(lia)) as [h [x [Hh Hx]]].
    destruct x as [|[[|]|]| |]; try discriminate.
    destruct (Hfair h (worker_lt_n h _ t Hh) t) as [m Hf].
    exact (held_lower h m t Ht Hh Hf).
Qed.

Lemma drain (a : nat) : forall k t,
  t0 <= t -> alive (ps t) = a -> token_dist (ps t) = k ->
  exists t', t <= t' /\ alive (ps t') = 0.
Proof.
  induction a as [a IHa] using lt_wf_ind. intros k.
  induction k as [k IHk] using lt_wf_ind. intros t Ht Ha Hk.
  destruct a as [|a]; [exists t; split; [lia|exact Ha]|].
  destruct (eventually_lower t Ht ltac:(lia)) as [t' [Ht' [Hlt|[Heq Hlt]]]].
  - destruct (IHa (alive (ps t')) ltac:(lia) (token_dist (ps t')) t' ltac:(lia)
                  eq_refl eq_refl) as [t'' [Ht'' H]].
    exists t''. split; [lia|exact H].
  - destruct (IHk (token_dist (ps t')) ltac:(lia) t' ltac:(lia) ltac:(lia) eq_refl)
      as [t'' [Ht'' H]].
    exists t''. split; [lia|exact H].
Qed.

Lemma alive_stays_zero (t t' : nat) : t <= t' -> alive (ps t) = 0 -> alive (ps t') = 0.
Proof.
  induction 1 as [|t' _ IH]; [tauto|]. intros H0.
  pose proof (alive_step provider n _ _ _ (run_inv t') (Hrun t')). specialize (IH H0). lia.
Qed.

End Drain.

Lemma all_finished (ws : list WState) :
  count_w is_finished ws = length ws -> Forall (fun w => w = Finished) ws.
Proof.
  induction ws as [|w ws IH]; simpl; intros H; constructor.
  - destruct w; simpl in H; try reflexivity; pose proof (count_w_bound is_finished ws); lia.
  - apply IH. destruct w; simpl in H; try lia; pose proof (count_w_bound is_finished ws); lia.
Qed.

Lemma join_all_finished (ws : list WState) :
  Forall (fun w => w = Finished) ws -> join_all ws = Some [].
Proof. induction 1 as [|w ws -> _ IH]; simpl; [reflexivity|exact IH]. Qed.

(** C4: start [n] workers, let exactly one unit of work return
    [ShouldQuit], and schedule every worker fairly (units of work run to
    completion): from some instant on, every worker has returned through
    the control branch, exactly [n] control tasks have been consumed, one
    [Task::Message(ShouldQuit)] stays in the queue for good, and the join
    loop of [bind] returns [Ok(())]. *)
Theorem pool_drains (provider : UnixStream -> Message) (n : nat)
    (ps : nat -> Pool) (ls : nat -> Label) :
  ps 0 = init_pool n ->
  is_run provider ps ls ->
  (forall i, i < n -> weakly_fair provider ps ls i) ->
  (forall t, triggers (ps t) <= 1) ->
  (exists t0, triggers (ps t0) = 1) ->
  exists t, forall t', t <= t' ->
    Forall (fun w => w = Finished) (workers (ps t')) /\
    length (workers (ps t')) = n /\
    consumed (ps t') = n /\
    count_quit (queue (chan (ps t'))) = 1 /\
    bind_finish (ps t') = Some ([InfoUnbinding], inl tt).
Proof.
  intros Hinit Hrun Hfair Hone [t0 Ht0].
  destruct (drain provider n ps ls Hinit Hrun Hfair Hone t0 Ht0 (alive (ps t0))
              (token_dist (ps t0)) t0 (le_n _) eq_refl eq_refl) as [t1 [Ht1 Ha1]].
  exists t1. intros t' Ht'.
  pose proof (run_inv provider n ps ls Hinit Hrun t') as [Hlen _ Hpa _ _ Htok Hcons].
  assert (Ha : alive (ps t') = 0) by (eapply alive_stays_zero; eauto).
  assert (Ht : triggers (ps t') = 1) by (eapply run_triggers; eauto; lia).
  pose proof (count_w_split (workers (ps t'))) as Hsplit.
  pose proof (holds_quit_alive (workers (ps t'))) as Hhq.
  unfold alive in Ha.
  assert (Hall : Forall (fun w => w = Finished) (workers (ps t')))
    by (apply all_finished; lia).
  split; [exact Hall|]. split; [exact Hlen|]. split; [lia|]. split; [lia|].
  unfold bind_finish. rewrite (join_all_finished _ Hall). reflexivity.
Qed.

Lemma demo_states_after (k : nat) : demo_states (5 + k) = demo_states 5.
Proof.
  induction k as [|k IH]; [reflexivity|].
  change (demo_states (S (5 + k))) with
    (match pool_next demo_provider (demo_labels (5 + k)) (demo_states (5 + k)) with
     | Some p => p | None => demo_states (5 + k) end).
  simpl (demo_labels (5 + k)). simpl pool_next. exact IH.
Qed.

Lemma demo_is_run : is_run demo_provider demo_states demo_labels.
Proof.
  intros t. destruct t as [|[|[|[|[|t]]]]]; [vm_compute; reflexivity ..|].
  change (demo_states (S (5 + t))) with
    (match pool_next demo_provider (demo_labels (5 + t)) (demo_states (5 + t)) with
     | Some p => p | None => demo_states (5 + t) end).
  reflexivity.
Qed.

Lemma demo_fair (i : nat) : i < 1 -> weakly_fair demo_provider demo_states demo_labels i.
Proof.
  intros Hi. assert (i = 0) as -> by lia. intros t.
  destruct t as [|[|[|[|[|t]]]]].
  - exists 1. right. reflexivity.
  - exists 0. right. reflexivity.
  - exists 0. right. reflexivity.
  - exists 0. right. reflexivity.
  - exists 0. right. reflexivity.
  - exists 0. left. rewrite Nat.add_0_r.
    change (S (S (S (S (S t))))) with (5 + t). rewrite demo_states_after.
    unfold enabled. vm_compute. congruence.
Qed.

Lemma demo_one_trigger (t : nat) : triggers (demo_states t) <= 1.
Proof.
  destruct t as [|[|[|[|[|t]]]]]; [vm_compute; lia ..|].
  change (S (S (S (S (S t))))) with (5 + t). rewrite demo_states_after.
  vm_compute. lia.
Qed.

Lemma pool_drains_witness :
  demo_states 0 = init_pool 1 /\
  triggers (demo_states 3) = 1 /\
  exists t, forall t', t <= t' ->
    Forall (fun w => w = Finished) (workers (demo_states t')) /\
    length (workers (demo_states t')) = 1 /\
    consumed (demo_states t') = 1 /\
    count_quit (queue (chan (demo_states t'))) = 1 /\
    bind_finish (demo_states t') = Some ([InfoUnbinding], inl tt).
Proof.
  assert (H0 : demo_states 0 = init_pool 1) by reflexivity.
  assert (H3 : triggers (demo_states 3) = 1) by (vm_compute; reflexivity).
  split; [exact H0|]. split; [exact H3|].
  exact (pool_drains demo_provider 1 demo_states demo_labels H0 demo_is_run demo_fair
           demo_one_trigger (ex_intro _ 3 H3)).
Defined.

(** ** Further properties of the pool, the accept loop and the Binder *)

Lemma count_w_zero_forall (f : WState -> bool) (ws : list WState) :
  count_w f ws = 0 -> Forall (fun w => f w = false) ws.
Proof.
  induction ws as [|w ws IH]; simpl; intros H; constructor.
  - destruct (f w); [lia|reflexivity].
  - apply IH. lia.
Qed.

(** From a state of the invariant, a step only ever appends accept-error
    lines to the log. *)
Lemma step_log_accept_only (provider : UnixStream -> Message) (n : nat) (l : Label)
    (p p' : Pool) :
  pool_inv n p -> pool_next provider l p = Some p' ->
  exists extra, log p' = log p ++ extra /\ Forall (fun e => e = ErrAccept) extra.
Proof.
  intros Hinv Hs. pose proof Hinv as [Hlen Hpo Hpa Hrx Htx Htok Hcons].
  destruct l as [j|s| | |]; simpl in Hs; try (injection Hs as <-).
  - unfold worker_step in Hs.
    destruct (workers p !! j) as [[| t | |]|] eqn:Hj; try discriminate.
    + rewrite Hpo in Hs. unfold recv in Hs.
      destruct (queue (chan p)) as [|x q] eqn:Hq.
      * destruct (Nat.eqb_spec (senders (chan p)) 0); [lia|discriminate].
      * injection Hs as <-. exists []. rewrite app_nil_r. split; [reflexivity|constructor].
    + assert (Hsend : forall t', send (chan p) t' <> None)
        by (intros t'; unfold send; destruct (Nat.eqb_spec (rx_refs (chan p)) 0);
            [lia|discriminate]).
      exists []. rewrite app_nil_r. split; [|constructor].
      unfold send_quit_or_panic in Hs.
      destruct t as [[|]|s]; [| |destruct (provider s)]; injection Hs as <-;
        try reflexivity;
        destruct (send _ _) eqn:E; try reflexivity; exfalso; eapply Hsend; exact E.
  - unfold listener_accept, send. exists [].
    rewrite app_nil_r. split; [|constructor].
    destruct (listener_alive p); [|reflexivity].
    destruct (Nat.eqb_spec (rx_refs (chan p)) 0); [lia|reflexivity].
  - unfold listener_accept_error. destruct (listener_alive p).
    + exists [ErrAccept]. split; [reflexivity|repeat constructor].
    + exists []. rewrite app_nil_r. split; [reflexivity|constructor].
  - unfold listener_end. exists []. rewrite app_nil_r. split; [|constructor].
    destruct (listener_alive p); reflexivity.
  - exists []. rewrite app_nil_r. split; [reflexivity|constructor].
Qed.

Lemma reach_log_accept_only (provider : UnixStream -> Message) (n : nat) (p : Pool) :
  reach provider (init_pool n) p -> Forall (fun e => e = ErrAccept) (log p).
Proof.
  induction 1 as [|p l p' Hr IH Hs]; [constructor|].
  destruct (step_log_accept_only provider n l p p' (reach_inv provider n p Hr) Hs)
    as [extra [-> Hextra]].
  apply Forall_app. split; [exact IH|exact Hextra].
Qed.

(** [consumed] grows only when a [Task::Message(ShouldQuit)] is taken from
    the queue. *)
Lemma consumed_step (provider : UnixStream -> Message) (l : Label) (p p' : Pool) :
  pool_next provider l p = Some p' ->
  consumed p' = consumed p \/
  (consumed p' = S (consumed p) /\ 0 < count_quit (queue (chan p))).
Proof.
  intros Hs. destruct l as [j|s| | |]; simpl in Hs; try (injection Hs as <-).
  - unfold worker_step in Hs.
    destruct (workers p !! j) as [[| t | |]|]; try discriminate.
    + destruct (poisoned p); [injection Hs as <-; left; reflexivity|].
      unfold recv in Hs. destruct (queue (chan p)) as [|x q] eqn:Hq.
      * destruct (Nat.eqb (senders (chan p)) 0); try discriminate.
        injection Hs as <-. left. reflexivity.
      * injection Hs as <-. unfold add_consumed; cbn. destruct (is_quit_task x) eqn:Hx.
        -- right. split; lia.
        -- left. lia.
    + unfold send_quit_or_panic in Hs.
      destruct t as [[|]|s]; [| |destruct (provider s)]; injection Hs as <-;
        left; unfold upd, add_log, add_trigger; repeat case_match; reflexivity.
  - left. unfold listener_accept. repeat case_match; reflexivity.
  - left. unfold listener_accept_error, add_log. repeat case_match; reflexivity.
  - left. unfold listener_end. repeat case_match; reflexivity.
  - left. reflexivity.
Qed.

Lemma reach_no_trigger_no_consumed (provider : UnixStream -> Message) (n : nat) (p : Pool) :
  reach provider (init_pool n) p -> triggers p = 0 -> consumed p = 0.
Proof.
  induction 1 as [|p l p' Hr IH Hs]; [reflexivity|]. intros Ht'.
  pose proof (triggers_step provider l p p' Hs) as Hle.
  pose proof (reach_inv provider n p Hr) as [_ _ _ _ _ Htok _].
  destruct (consumed_step provider l p p' Hs) as [-> | [-> Hq]]; [apply IH; lia|].
  lia.
Qed.

(** Every queue the pool reaches from a poisoned state extends the queue
    of that state: nobody receives anymore, and the poison stays. *)
Lemma poisoned_step (provider : UnixStream -> Message) (l : Label) (p p' : Pool) :
  poisoned p = true -> pool_next provider l p = Some p' ->
  poisoned p' = true /\ exists r, queue (chan p') = queue (chan p) ++ r.
Proof.
  intros Hpo Hs. destruct l as [j|s| | |]; simpl in Hs; try (injection Hs as <-).
  - unfold worker_step in Hs. rewrite Hpo in Hs.
    destruct (workers p !! j) as [[| t | |]|]; try discriminate.
    + injection Hs as <-. split; [exact Hpo|]. exists []. rewrite app_nil_r. reflexivity.
    + unfold send_quit_or_panic, send in Hs.
      destruct t as [[|]|s]; [| |destruct (provider s)]; injection Hs as <-;
        unfold upd, add_log, add_trigger; cbn;
        repeat (destruct (Nat.eqb _ 0); cbn);
        (split; [exact Hpo|]);
        first [exists []; rewrite app_nil_r; reflexivity
              |eexists; reflexivity].
  - unfold listener_accept, send. destruct (listener_alive p);
      [destruct (Nat.eqb _ 0)|]; cbn;
      (split; [exact Hpo|]); first [exists []; rewrite app_nil_r; reflexivity
                                   |eexists; reflexivity].
  - unfold listener_accept_error, add_log. repeat case_match; cbn;
      (split; [exact Hpo|]); exists []; rewrite app_nil_r; reflexivity.
  - unfold listener_end. repeat case_match; cbn;
      (split; [exact Hpo|]); exists []; rewrite app_nil_r; reflexivity.
  - split; [exact Hpo|]. exists []. rewrite app_nil_r. reflexivity.
Qed.




(** ** Further properties of the socket of [src/lib.rs] *)

Module LegacyFacts.
Import Legacy.

Lemma state_u8_listening (s : State) : Nat.eqb (state_u8 s) 1 = true <-> s = Listening.
Proof. destruct s; simpl; split; congruence. Qed.

Lemma drain_unpoisoned (u : UnixDomainSocket) (ms : list Message) :
  state_poisoned u = false ->
  drain_messages u ms = (mkUds (final_state (state u) ms) false, inl tt).
Proof.
  revert u. induction ms as [|[s] ms IH]; intros u Hp; simpl.
  - destruct u as [st po]; simpl in *; subst; reflexivity.
  - unfold set_state. rewrite Hp. rewrite (IH (mkUds s false) eq_refl). reflexivity.
Qed.

Lemma count_ev_app (f : LEvent -> bool) (l1 l2 : list LEvent) :
  count_ev f (l1 ++ l2) = count_ev f l1 + count_ev f l2.
Proof. induction l1 as [|e l1 IH]; simpl; [reflexivity|rewrite IH; lia]. Qed.

Lemma count_ev_map_os (f : LEvent -> bool) (l : list Event) :
  (forall e, f (LOs e) = false) -> count_ev f (map LOs l) = 0.
Proof. intros Hf. induction l as [|e l IH]; simpl; [reflexivity|rewrite Hf, IH; reflexivity]. Qed.

Lemma accepted_app (its1 its2 : list Iteration) :
  accepted (its1 ++ its2) = accepted its1 + accepted its2.
Proof. induction its1 as [|it its1 IH]; simpl; [reflexivity|rewrite IH; lia]. Qed.

Lemma accepted_le (its : list Iteration) : accepted its <= length its.
Proof. induction its as [|it its IH]; simpl; [lia|destruct (socket_ok it); lia]. Qed.

Definition listening_socket : UnixDomainSocket := mkUds Listening false.

(** While every batch leaves the state at [Listening], the loop goes
    through the iterations one by one. *)
Lemma listen_prefix (its1 : list Iteration) :
  Forall (fun it => final_state Listening (arrived it) = Listening) its1 ->
  exists l1, count_ev is_spawn l1 = accepted its1 /\
    count_ev is_err_socket l1 = length its1 - accepted its1 /\
    forall rest, listen listening_socket (its1 ++ rest) =
      match listen listening_socket rest with (u2, l, r) => (u2, l1 ++ l, r) end.
Proof.
  induction 1 as [|it its1 Hit _ (l1 & Hs & He & IH)].
  - exists []. split; [reflexivity|]. split; [reflexivity|].
    intros rest. simpl. destruct (listen _ rest) as [[u2 l] r]. reflexivity.
  - exists ((if socket_ok it then SpawnHandler else ErrSocket) :: DebugSpawned :: l1).
    split; [simpl; destruct (socket_ok it); simpl; lia|].
    split; [simpl; destruct (socket_ok it); simpl;
            pose proof (accepted_le its1); lia|].
    intros rest. simpl. rewrite drain_unpoisoned by reflexivity. simpl.
    rewrite Hit. simpl. rewrite IH. destruct (listen _ rest) as [[u2 l] r]. reflexivity.
Qed.

Lemma setup_when_ok (os : Os) :
  setup_ok os -> setup os = (if path_exists os then [FsRemoveFile] else [], inl tt).
Proof.
  intros (Hr & Hu & Hb). unfold setup, remove_stale, path_to_str, unix_listener_bind.
  rewrite Hu, Hb. destruct (path_exists os); [rewrite (Hr eq_refl)|]; reflexivity.
Qed.

(** With a successful setup and a healthy lock, [bind] logs the setup,
    sets [State::Listening] and runs the loop. *)
Lemma bind_when_ok (os : Os) (u : UnixDomainSocket) (its : list Iteration) :
  setup_ok os -> state_poisoned u = false ->
  bind os u its =
    match listen listening_socket its with
    | (u2, l2, r) =>
        (u2, map LOs (if path_exists os then [FsRemoveFile] else []) ++ LOs InfoBound :: l2, r)
    end.
Proof.
  intros Hok Hp. unfold bind. rewrite (setup_when_ok os Hok).
  unfold set_state. rewrite Hp. reflexivity.
Qed.

Lemma listen_stop (it : Iteration) (rest : list Iteration) (s : State) :
  final_state Listening (arrived it) = s -> s <> Listening ->
  listen listening_socket (it :: rest) =
    (mkUds s false, [if socket_ok it then SpawnHandler else ErrSocket; InfoClosed], inl tt).
Proof.
  intros Hs Hne. simpl. rewrite drain_unpoisoned by reflexivity. simpl. rewrite Hs.
  unfold is_listening, get_state. simpl.
  destruct (Nat.eqb (state_u8 s) 1) eqn:E; [apply state_u8_listening in E; congruence|].
  reflexivity.
Qed.

End LegacyFacts.

Lemma join_all_blocks (ws : list WState) :
  0 < count_w is_alive ws -> join_all ws = None.
Proof.
  induction ws as [|w ws IH]; simpl; [lia|].
  destruct w; simpl; intros H; try reflexivity.
  - apply IH. lia.
  - rewrite IH by lia. reflexivity.
Qed.


(** X1: in every state of a pool started by [bind], the task mutex is not
    poisoned, no worker thread has panicked, and the log holds nothing but
    accept errors of the listener: the [lock], [recv] and relay [send] of
    [worker] never fail there. *)
Theorem bind_pool_workers_never_fail (provider : UnixStream -> Message) (n : nat) (p : Pool) :
  reach provider (init_pool n) p ->
  poisoned p = false /\ Forall (fun w => w <> Panicked) (workers p) /\
  Forall (fun e => e = ErrAccept) (log p).
Proof.
  intros Hr. pose proof (reach_inv provider n p Hr) as [_ Hpo Hpa _ _ _ _].
  split; [exact Hpo|]. split; [|exact (reach_log_accept_only provider n p Hr)].
  apply count_w_zero_forall in Hpa. eapply Forall_impl; [exact Hpa|].
  intros w Hw ->. discriminate.
Qed.

Lemma bind_pool_workers_never_fail_witness :
  let p := demo_run 2 [LAcceptError; LAccept 1; LAccept 0; LWorker 0; LWorker 1;
                       LWorker 0; LWorker 1] in
  reach demo_provider (init_pool 2) p /\ log p = [ErrAccept] /\
  (poisoned p = false /\ Forall (fun w => w <> Panicked) (workers p) /\
   Forall (fun e => e = ErrAccept) (log p)).
Proof.
  intros p.
  assert (Hr : reach demo_provider (init_pool 2) p)
    by (apply (run_labels_reach demo_provider
                 [LAcceptError; LAccept 1; LAccept 0; LWorker 0; LWorker 1; LWorker 0; LWorker 1]
                 (init_pool 2) (init_pool 2)); [constructor | vm_compute; reflexivity]).
  split; [exact Hr|]. split; [vm_compute; reflexivity|].
  exact (bind_pool_workers_never_fail demo_provider 2 p Hr).
Defined.

(** X2: as long as no unit of work has returned [ShouldQuit], every worker
    of a pool started by [bind] is alive, none has taken a control task,
    no [Task::Message(ShouldQuit)] is in the queue, and (with at least one
    worker) the join loop of [bind] is still waiting. *)
Theorem no_shutdown_before_should_quit (provider : UnixStream -> Message) (n : nat) (p : Pool) :
  reach provider (init_pool n) p -> triggers p = 0 ->
  alive p = n /\ consumed p = 0 /\ count_quit (queue (chan p)) = 0 /\
  (0 < n -> bind_finish p = None).
Proof.
  intros Hr Ht. pose proof (reach_no_trigger_no_consumed provider n p Hr Ht) as Hc.
  pose proof (reach_inv provider n p Hr) as [Hlen _ Hpa _ _ Htok Hcons].
  pose proof (count_w_split (workers p)) as Hsplit.
  assert (Ha : alive p = n) by (unfold alive; lia).
  split; [exact Ha|]. split; [exact Hc|]. split; [lia|].
  intros Hn. unfold bind_finish. rewrite join_all_blocks; [reflexivity|].
  unfold alive in Ha. lia.
Qed.

Lemma no_shutdown_before_should_quit_witness :
  let p := demo_run 2 [LAccept 1; LWorker 0; LAccept 2; LWorker 0; LWorker 1] in
  reach demo_provider (init_pool 2) p /\ triggers p = 0 /\
  (alive p = 2 /\ consumed p = 0 /\ count_quit (queue (chan p)) = 0 /\
   (0 < 2 -> bind_finish p = None)).
Proof.
  intros p.
  assert (Hr : reach demo_provider (init_pool 2) p)
    by (apply (run_labels_reach demo_provider
                 [LAccept 1; LWorker 0; LAccept 2; LWorker 0; LWorker 1]
                 (init_pool 2) (init_pool 2)); [constructor | vm_compute; reflexivity]).
  assert (Ht : triggers p = 0) by (vm_compute; reflexivity).
  split; [exact Hr|]. split; [exact Ht|].
  exact (no_shutdown_before_should_quit demo_provider 2 p Hr Ht).
Defined.

(** X3: once no worker of a pool started by [bind] is alive, every worker
    returned through the control branch, each consumed one control task,
    the queue holds exactly one [Task::Message(ShouldQuit)] per unit of
    work that returned [ShouldQuit], and the join loop returns [Ok(())]
    without logging an error. *)
Theorem returned_pool_keeps_one_signal_per_trigger (provider : UnixStream -> Message)
    (n : nat) (p : Pool) :
  reach provider (init_pool n) p -> alive p = 0 ->
  Forall (fun w => w = Finished) (workers p) /\ consumed p = n /\
  count_quit (queue (chan p)) = triggers p /\
  bind_finish p = Some ([InfoUnbinding], inl tt).
Proof.
  intros Hr Ha. pose proof (reach_inv provider n p Hr) as [Hlen _ Hpa _ _ Htok Hcons].
  pose proof (count_w_split (workers p)) as Hsplit.
  pose proof (holds_quit_alive (workers p)) as Hhq.
  unfold alive in Ha.
  assert (Hall : Forall (fun w => w = Finished) (workers p)) by (apply all_finished; lia).
  split; [exact Hall|]. split; [lia|]. split; [lia|].
  unfold bind_finish. rewrite (join_all_finished _ Hall). reflexivity.
Qed.

Lemma returned_pool_keeps_one_signal_per_trigger_witness :
  let p := demo_run 1 [LAccept 0; LAccept 0; LWorker 0; LWorker 0; LWorker 0;
                       LWorker 0; LWorker 0; LWorker 0] in
  reach demo_provider (init_pool 1) p /\ alive p = 0 /\ triggers p = 2 /\
  (Forall (fun w => w = Finished) (workers p) /\ consumed p = 1 /\
   count_quit (queue (chan p)) = triggers p /\
   bind_finish p = Some ([InfoUnbinding], inl tt)).
Proof.
  intros p.
  assert (Hr : reach demo_provider (init_pool 1) p)
    by (apply (run_labels_reach demo_provider
                 [LAccept 0; LAccept 0; LWorker 0; LWorker 0; LWorker 0;
                  LWorker 0; LWorker 0; LWorker 0]
                 (init_pool 1) (init_pool 1)); [constructor | vm_compute; reflexivity]).
  assert (Ha : alive p = 0) by (vm_compute; reflexivity).
  split; [exact Hr|]. split; [exact Ha|]. split; [vm_compute; reflexivity|].
  exact (returned_pool_keeps_one_signal_per_trigger demo_provider 1 p Hr Ha).
Defined.

(** X4: on a poisoned task mutex, a worker at the top of its loop logs the
    lock error and panics; and from a poisoned state on, the mutex stays
    poisoned and no task is ever taken from the queue again: every later
    queue extends the current one. *)
Theorem poisoned_mutex_stops_dequeuing (provider : UnixStream -> Message) (i : nat) (p : Pool) :
  poisoned p = true -> workers p !! i = Some Idle ->
  (exists p', worker_step provider i p = Some p' /\
     workers p' !! i = Some Panicked /\ log p' = log p ++ [ErrLock]) /\
  (forall q, reach provider p q ->
     poisoned q = true /\ exists r, queue (chan q) = queue (chan p) ++ r).
Proof.
  intros Hpo Hi. split.
  - unfold worker_step. rewrite Hi, Hpo. eexists. split; [reflexivity|].
    split; [simpl; exact (lookup_upd_same i Idle Panicked _ Hi)|reflexivity].
  - induction 1 as [|q l q' _ IH Hs].
    + split; [exact Hpo|]. exists []. rewrite app_nil_r. reflexivity.
    + destruct IH as [Hq [r Hr]].
      destruct (poisoned_step provider l q q' Hq Hs) as [Hq' [r' Hr']].
      split; [exact Hq'|]. exists (r ++ r'). rewrite Hr', Hr, app_assoc. reflexivity.
Qed.

Lemma poisoned_mutex_stops_dequeuing_witness :
  let p := mkPool (mkChannel [Task_Socket 3] 3 2) true
                  [Idle; Holding (Task_Socket 0)] true [] 0 0 in
  poisoned p = true /\ workers p !! 0 = Some Idle /\
  ((exists p', worker_step demo_provider 0 p = Some p' /\
     workers p' !! 0 = Some Panicked /\ log p' = log p ++ [ErrLock]) /\
   (forall q, reach demo_provider p q ->
     poisoned q = true /\ exists r, queue (chan q) = queue (chan p) ++ r)).
Proof.
  intros p. split; [reflexivity|]. split; [reflexivity|].
  exact (poisoned_mutex_stops_dequeuing demo_provider 0 p eq_refl eq_refl).
Defined.

(** X5: while the listener runs and the receiver is alive, its loop sends
    every accepted connection as a [Task::Socket], in the order they were
    accepted, behind what is already queued; each failed accept adds one
    error line and the loop goes on; the workers, the lock and the handle
    counts are untouched. *)
Theorem listener_enqueues_connections_in_order (inc : list (option UnixStream)) (p : Pool) :
  listener_alive p = true -> 0 < rx_refs (chan p) ->
  queue (chan (listener_loop inc p)) = queue (chan p) ++ map Task_Socket (omap id inc) /\
  log (listener_loop inc p) = log p ++ repeat ErrAccept (length (filter (fun o => o = None) inc)) /\
  senders (chan (listener_loop inc p)) = senders (chan p) /\
  rx_refs (chan (listener_loop inc p)) = rx_refs (chan p) /\
  workers (listener_loop inc p) = workers p /\
  poisoned (listener_loop inc p) = poisoned p /\
  listener_alive (listener_loop inc p) = true.
Proof.
  revert p. induction inc as [|[s|] inc IH]; intros p Hl Hrx; simpl.
  - rewrite !app_nil_r. repeat split; assumption.
  - assert (Hs : listener_accept s p =
      mkPool (set_queue (queue (chan p) ++ [Task_Socket s]) (chan p))
             (poisoned p) (workers p) true (log p) (consumed p) (triggers p)).
    { unfold listener_accept, send. rewrite Hl.
      destruct (Nat.eqb_spec (rx_refs (chan p)) 0); [lia|reflexivity]. }
    destruct (decide (Some s = None)); [discriminate|].
    destruct (IH (listener_accept s p)) as (Hq & Hlog & Hse & Hrx' & Hw & Hpo & Hal);
      [rewrite Hs; reflexivity|rewrite Hs; exact Hrx|].
    rewrite Hs in *. cbn in *. rewrite Hq, <- app_assoc. repeat split; assumption.
  - assert (Hs : listener_accept_error p = add_log ErrAccept p)
      by (unfold listener_accept_error; rewrite Hl; reflexivity).
    rewrite Hs. destruct (decide (@None UnixStream = None)); [|congruence].
    destruct (IH (add_log ErrAccept p) Hl Hrx) as (Hq & Hlog & Hse & Hrx' & Hw & Hpo & Hal).
    cbn in *. rewrite Hlog, <- app_assoc. repeat split; assumption.
Qed.

Lemma listener_enqueues_connections_in_order_witness :
  let inc := [Some 4; None; Some 2; None] in
  let p := init_pool 1 in
  listener_alive p = true /\ 0 < rx_refs (chan p) /\
  queue (chan (listener_loop inc p)) = [Task_Socket 4; Task_Socket 2] /\
  (queue (chan (listener_loop inc p)) = queue (chan p) ++ map Task_Socket (omap id inc) /\
   log (listener_loop inc p) = log p ++ repeat ErrAccept (length (filter (fun o => o = None) inc)) /\
   senders (chan (listener_loop inc p)) = senders (chan p) /\
   rx_refs (chan (listener_loop inc p)) = rx_refs (chan p) /\
   workers (listener_loop inc p) = workers p /\
   poisoned (listener_loop inc p) = poisoned p /\
   listener_alive (listener_loop inc p) = true).
Proof.
  intros inc p. split; [reflexivity|]. split; [vm_compute; lia|].
  split; [vm_compute; reflexivity|].
  exact (listener_enqueues_connections_in_order inc p eq_refl ltac:(vm_compute; lia)).
Defined.






(** X10: draining the pending messages ([try_iter] with
    [receive_message]) leaves the state named by the last message, or the
    current one if there is none; on a poisoned lock the first message
    fails and the drain stops there. *)
Theorem drain_last_message_wins (u : Legacy.UnixDomainSocket) (ms : list Legacy.Message) :
  Legacy.drain_messages u ms =
    if Legacy.state_poisoned u then
      match ms with [] => (u, inl tt) | _ :: _ => (u, inr Legacy.LockPoisoned) end
    else (Legacy.mkUds (Legacy.final_state (Legacy.state u) ms) false, inl tt).
Proof.
  destruct (Legacy.state_poisoned u) eqn:E.
  - destruct ms as [|[s] ms]; simpl; [reflexivity|]. unfold Legacy.set_state. rewrite E.
    reflexivity.
  - exact (LegacyFacts.drain_unpoisoned u ms E).
Qed.





(** X13: in [bind] of [src/lib.rs], the loop stops at the end of the first
    iteration whose drained messages leave the state other than
    [State::Listening]: the connection of that iteration is still handed
    to a handler, later connections are never touched, and [bind] returns
    [Ok(())] in the state of the last message. *)
Theorem legacy_bind_stops_after_quit_iteration (os : Os) (u : Legacy.UnixDomainSocket)
    (its1 : list Legacy.Iteration) (it : Legacy.Iteration) (rest : list Legacy.Iteration)
    (s : Legacy.State) :
  setup_ok os -> Legacy.state_poisoned u = false ->
  Forall (fun it' => Legacy.final_state Legacy.Listening (Legacy.arrived it')
                     = Legacy.Listening) its1 ->
  Legacy.final_state Legacy.Listening (Legacy.arrived it) = s -> s <> Legacy.Listening ->
  Legacy.bind os u (its1 ++ it :: rest) = Legacy.bind os u (its1 ++ [it]) /\
  exists l, Legacy.bind os u (its1 ++ [it]) = (Legacy.mkUds s false, l, inl tt) /\
    Legacy.count_ev Legacy.is_spawn l = Legacy.accepted (its1 ++ [it]).
Proof.
  intros Hok Hp Hk Hs Hne.
  destruct (LegacyFacts.listen_prefix its1 Hk) as (l1 & Hsp & _ & Hl).
  rewrite !(LegacyFacts.bind_when_ok os u _ Hok Hp), !Hl,
    !(LegacyFacts.listen_stop it _ s Hs Hne).
  split; [reflexivity|]. eexists. split; [reflexivity|].
  rewrite LegacyFacts.count_ev_app, LegacyFacts.count_ev_map_os by reflexivity.
  simpl. rewrite LegacyFacts.count_ev_app, LegacyFacts.accepted_app. simpl.
  destruct (Legacy.socket_ok it); simpl; lia.
Qed.

Lemma legacy_bind_stops_after_quit_iteration_witness :
  let its1 := [Legacy.mkIteration true [];
               Legacy.mkIteration true [Legacy.ChangeState Legacy.ShouldQuit;
                                        Legacy.ChangeState Legacy.Listening]] in
  let it := Legacy.mkIteration true [Legacy.ChangeState Legacy.ShouldQuit] in
  let rest := [Legacy.mkIteration true []] in
  setup_ok os_ok /\ Legacy.state_poisoned Legacy.new = false /\
  Forall (fun it' => Legacy.final_state Legacy.Listening (Legacy.arrived it')
                     = Legacy.Listening) its1 /\
  Legacy.final_state Legacy.Listening (Legacy.arrived it) = Legacy.ShouldQuit /\
  Legacy.ShouldQuit <> Legacy.Listening /\
  (Legacy.bind os_ok Legacy.new (its1 ++ it :: rest) = Legacy.bind os_ok Legacy.new (its1 ++ [it]) /\
   exists l, Legacy.bind os_ok Legacy.new (its1 ++ [it]) =
               (Legacy.mkUds Legacy.ShouldQuit false, l, inl tt) /\
     Legacy.count_ev Legacy.is_spawn l = Legacy.accepted (its1 ++ [it])).
Proof.
  intros its1 it rest.
  assert (Hok : setup_ok os_ok) by (repeat split).
  assert (Hk : Forall (fun it' => Legacy.final_state Legacy.Listening (Legacy.arrived it')
                                  = Legacy.Listening) its1) by repeat constructor.
  assert (Hne : Legacy.ShouldQuit <> Legacy.Listening) by discriminate.
  split; [exact Hok|]. split; [reflexivity|]. split; [exact Hk|].
  split; [reflexivity|]. split; [exact Hne|].
  exact (legacy_bind_stops_after_quit_iteration os_ok Legacy.new its1 it rest
           Legacy.ShouldQuit Hok eq_refl Hk eq_refl Hne).
Defined.
